(** * Mython: the lexer, the runtime object model and the AST evaluator

    A shallow embedding of [lexer.cpp], [runtime.cpp] and [statement.cpp],
    followed by the properties proved about them.

    Conventions of the embedding.
    - A [std::istream] is the string of the characters not yet extracted.
    - C++ exceptions, failed [assert]s and behaviour that C++ leaves undefined
      (reads of uninitialised variables, null or dangling dereferences) are
      distinct outcomes of the functions that can produce them.
    - Functions that recurse without a structural argument take a [fuel]
      counter; running out of fuel is an outcome of its own, never confused
      with a result of the program. *)

From stdpp Require Import gmap strings list.
From Stdlib Require Import ZArith String Ascii DecimalString Lia.
From Stdlib Require DecimalPos DecimalZ.

Set Warnings "-register-all".

Local Open Scope string_scope.

(** C++ exceptions thrown by the sources: [std::runtime_error(what)] by the
    runtime and the AST, [std::out_of_range] by [std::stoi] and
    [vector::at], [std::invalid_argument] by [std::stoi]. *)
Inductive Exception :=
| runtime_error (what : string)
| out_of_range (what : string)
| invalid_argument (what : string).

(* ================================================================= *)
(** ** lexer.cpp *)

Module parse.

(** The token variant ([lexer.h]); the alternatives keep their names. *)
Module token_type.
Inductive Token :=
| Number (value : Z)
| Id (value : string)
| String (value : string)
| Char (value : ascii)
| Class | Return | If | Else | Def | Newline | Print | Indent | Dedent
| And | Or | Not | Eq | NotEq | LessOrEq | GreaterOrEq
| None | True | False | Eof.
End token_type.
Abbreviation Token := token_type.Token.

(** What a lexer routine can end with: a value, a thrown exception, a failed
    [assert] (the process aborts), or undefined behaviour. *)
Inductive Lexed (A : Type) :=
| lex_ok (a : A)
| lex_throw (e : Exception)
| lex_assert_failed (what : string)
| lex_undefined (what : string).
Arguments lex_ok {A} a.
Arguments lex_throw {A} e.
Arguments lex_assert_failed {A} what.
Arguments lex_undefined {A} what.

(** Sequencing: anything but a value ends the routine. *)
Definition lex_bind {A B : Type} (r : Lexed A) (k : A -> Lexed B) : Lexed B :=
  match r with
  | lex_ok a => k a
  | lex_throw e => lex_throw e
  | lex_assert_failed w => lex_assert_failed w
  | lex_undefined w => lex_undefined w
  end.

(** *** Character classification

    [char] is signed on the platforms the lexer works on (see
    [is_eof_char]); [std::isdigit], [std::isalpha] and [std::isalnum] are
    those of the "C" locale and are false on bytes above 127. *)

Definition char_in_range (lo hi c : ascii) : bool :=
  (nat_of_ascii lo <=? nat_of_ascii c)%nat && (nat_of_ascii c <=? nat_of_ascii hi)%nat.

Definition isdigit (c : ascii) : bool := char_in_range "0" "9" c.
Definition isalpha (c : ascii) : bool :=
  char_in_range "a" "z" c || char_in_range "A" "Z" c.
Definition isalnum (c : ascii) : bool := isalpha c || isdigit c.

Definition newline_char : ascii := "010"%char.
Definition tab_char : ascii := "009"%char.
Definition backslash_char : ascii := "\"%char.
Definition dquote_char : ascii := "034"%char.
Definition squote_char : ascii := "'"%char.

(** [char ch = input_.peek()]: the next character without extracting it; at
    end of input [peek] returns [traits_type::eof()], that is [-1], which the
    conversion to [char] turns into the byte 255. *)
Definition eof_char : ascii := "255"%char.

Definition peek (input : string) : ascii :=
  match input with
  | EmptyString => eof_char
  | String.String c _ => c
  end.

(** [ch == std::ios::traits_type::eof()] with [ch] a (signed) [char]: the
    comparison promotes [ch] to [int], so it holds exactly for the byte 255,
    which is what [peek] leaves in [ch] at end of input. *)
Definition is_eof_char (ch : ascii) : bool := Ascii.eqb ch eof_char.

(** The loop shared by [CountSpaces], [ParseNumber] and [ParseName]:
[[
    while (input.get(c)) {
        if (P(c)) { acc += c; } else { input.putback(c); break; }
    }
]]
    It returns the accumulated characters and the rest of the stream. *)
Fixpoint get_while (P : ascii -> bool) (input : string) : string * string :=
  match input with
  | EmptyString => (EmptyString, EmptyString)
  | String.String c rest =>
      if P c then
        let '(acc, rest') := get_while P rest in (String.String c acc, rest')
      else (EmptyString, input)
  end.

(** [std::getline(input_, s)]: extracts up to and including the next
    newline; only what is left in the stream matters. *)
Fixpoint getline_rest (input : string) : string :=
  match input with
  | EmptyString => EmptyString
  | String.String c rest =>
      if Ascii.eqb c newline_char then rest else getline_rest rest
  end.

(** [std::stoi] on a run of decimal digits: the value,
    [std::out_of_range] when it does not fit an [int], and
    [std::invalid_argument] when there is no digit (the lexer calls it with
    one digit at least). *)
Definition INT_MAX : Z := 2147483647.
Definition INT_MIN : Z := -2147483648.

Definition digit_value (c : ascii) : Z :=
  Z.of_nat (nat_of_ascii c) - Z.of_nat (nat_of_ascii "0").

Fixpoint decimal_value (acc : Z) (digits : string) : Z :=
  match digits with
  | EmptyString => acc
  | String.String c rest => decimal_value (10 * acc + digit_value c) rest
  end.

Definition stoi (number : string) : Lexed Z :=
  match number with
  | EmptyString => lex_throw (invalid_argument "stoi")
  | _ =>
      let v := decimal_value 0 number in
      if (v <=? INT_MAX)%Z then lex_ok v else lex_throw (out_of_range "stoi")
  end.

(** Modelled from the spec: the table [key_words] is declared in [lexer.h],
    which is not among the sources; the spec lists the reserved words
    [class], [return], [if], [else], [def], [print], [and], [or], [not],
    [None], [True], [False] and their payload-free tokens. *)
Definition key_words : list (string * Token) :=
  [ ("class", token_type.Class); ("return", token_type.Return);
    ("if", token_type.If); ("else", token_type.Else);
    ("def", token_type.Def); ("print", token_type.Print);
    ("and", token_type.And); ("or", token_type.Or); ("not", token_type.Not);
    ("None", token_type.None); ("True", token_type.True);
    ("False", token_type.False) ].

(** Modelled from the spec: the table [dual_symbols] is declared in
    [lexer.h]; the spec lists [==], [!=], [<=], [>=]. *)
Definition dual_symbols : list (string * Token) :=
  [ ("==", token_type.Eq); ("!=", token_type.NotEq);
    ("<=", token_type.LessOrEq); (">=", token_type.GreaterOrEq) ].

(** [table.count(key) ? table.at(key) : nothing]. *)
Fixpoint table_find (table : list (string * Token)) (key : string) : option Token :=
  match table with
  | [] => Datatypes.None
  | (k, t) :: table' => if String.eqb k key then Some t else table_find table' key
  end.

(** *** The lexer object *)

Record Lexer := mkLexer {
  input_ : string;          (* the characters not yet extracted *)
  current_token_ : Token;
  begin_ : bool;            (* at the start of a logical line *)
  indents_ : nat;           (* indent of the current line, in levels *)
  indent_pos_ : nat         (* indent already announced by Indent/Dedent *)
}.

Definition set_input (lx : Lexer) (i : string) : Lexer :=
  mkLexer i (current_token_ lx) (begin_ lx) (indents_ lx) (indent_pos_ lx).
Definition set_token (lx : Lexer) (t : Token) : Lexer :=
  mkLexer (input_ lx) t (begin_ lx) (indents_ lx) (indent_pos_ lx).
Definition set_begin (lx : Lexer) (b : bool) : Lexer :=
  mkLexer (input_ lx) (current_token_ lx) b (indents_ lx) (indent_pos_ lx).
Definition set_indents (lx : Lexer) (n : nat) : Lexer :=
  mkLexer (input_ lx) (current_token_ lx) (begin_ lx) n (indent_pos_ lx).
Definition set_indent_pos (lx : Lexer) (n : nat) : Lexer :=
  mkLexer (input_ lx) (current_token_ lx) (begin_ lx) (indents_ lx) n.

(** [Lexer::PassString] *)
Definition PassString (lx : Lexer) : Lexer :=
  set_indents (set_begin (set_input lx (getline_rest (input_ lx))) true) 0.

(** [Lexer::PassComment]: extracts up to, not including, the next newline. *)
Definition PassComment (lx : Lexer) : Lexer :=
  set_input lx (snd (get_while (fun c => negb (Ascii.eqb c newline_char)) (input_ lx))).

(** [Lexer::CountSpaces] *)
Definition CountSpaces (lx : Lexer) : Lexer :=
  let '(spaces, rest) := get_while (fun c => Ascii.eqb c " ") (input_ lx) in
  let spaces_amount := String.length spaces in
  let lx := set_input lx rest in
  if begin_ lx then set_indents lx (spaces_amount / 2) else lx.

(** [Lexer::ParseNumber]: the value and the rest of the stream. *)
Definition ParseNumber (input : string) : Lexed (Z * string) :=
  let '(number, rest) := get_while isdigit input in
  lex_bind (stoi number) (fun v => lex_ok (v, rest)).

(** [Lexer::ParseName] *)
Definition ParseName (input : string) : string * string :=
  get_while (fun c => isalnum c || Ascii.eqb c "_") input.

(** [line += c] *)
Definition push_back (line : string) (c : ascii) : string :=
  line ++ String.String c EmptyString.

(** The loop of [Lexer::ParseString].  [line] is the text accumulated so far;
    [c] is the local variable [c], [Datatypes.None] while it is still
    uninitialised.  The loop ends by [break] on the closing quote, or when
    [input.get(c)] fails at end of input and leaves [c] as it was; in both
    cases [assert(c == start)] follows.  After a backslash
    [input.get(next)] may fail too, and [next] is then read uninitialised. *)
Fixpoint ParseString_loop (start : ascii) (c : option ascii) (line : string)
    (input : string) : Lexed (string * string) :=
  match input with
  | EmptyString =>
      (* input.get(c) fails: the loop ends with [c] unchanged *)
      match c with
      | Datatypes.None => lex_undefined "read of uninitialised c"
      | Some c' =>
          if Ascii.eqb c' start then lex_ok (line, EmptyString)
          else lex_assert_failed "c == start"
      end
  | String.String c' rest =>
      if Ascii.eqb c' backslash_char then
        match rest with
        | EmptyString => lex_undefined "read of uninitialised next"
        | String.String next rest' =>
            let line' :=
              if Ascii.eqb next dquote_char then push_back line dquote_char
              else if Ascii.eqb next squote_char then push_back line squote_char
              else if Ascii.eqb next "n" then push_back line newline_char
              else if Ascii.eqb next "t" then push_back line tab_char
              else line in
            ParseString_loop start (Some c') line' rest'
        end
      else if Ascii.eqb c' start then
        (* break; assert(c == start) holds *)
        lex_ok (line, rest)
      else ParseString_loop start (Some c') (push_back line c') rest
  end.

(** [Lexer::ParseString]; it is called with the opening quote still in the
    stream. *)
Definition ParseString (input : string) : Lexed (string * string) :=
  match input with
  | EmptyString => lex_undefined "input.get() at end of input"
  | String.String start rest => ParseString_loop start Datatypes.None EmptyString rest
  end.

(** [Lexer::LoadNextToken].  The function calls itself after skipping a blank
    line, a comment or a run of spaces; [fuel] bounds these calls and
    [Datatypes.None] means that it ran out. *)
Fixpoint LoadNextToken_fuel (fuel : nat) (lx : Lexer) : option (Lexed Lexer) :=
  match fuel with
  | O => Datatypes.None
  | S fuel' =>
      let ch := peek (input_ lx) in
      if is_eof_char ch then
        if negb (begin_ lx) then
          Some (lex_ok (set_token (PassString lx) token_type.Newline))
        else if (0 <? indent_pos_ lx)%nat then
          Some (lex_ok (set_token (set_indent_pos lx (indent_pos_ lx - 1)) token_type.Dedent))
        else Some (lex_ok (set_token lx token_type.Eof))
      else if Ascii.eqb ch newline_char then
        if begin_ lx then LoadNextToken_fuel fuel' (PassString lx)
        else Some (lex_ok (set_token (PassString lx) token_type.Newline))
      else if Ascii.eqb ch "#" then LoadNextToken_fuel fuel' (PassComment lx)
      else if Ascii.eqb ch " " then LoadNextToken_fuel fuel' (CountSpaces lx)
      else if negb (indent_pos_ lx =? indents_ lx)%nat && begin_ lx then
        if (indent_pos_ lx <? indents_ lx)%nat then
          Some (lex_ok (set_token (set_indent_pos lx (indent_pos_ lx + 1)) token_type.Indent))
        else
          Some (lex_ok (set_token (set_indent_pos lx (indent_pos_ lx - 1)) token_type.Dedent))
      else
        (* current_token_ = t, with the stream advanced; then begin_ = false *)
        let finish (r : Lexed (Token * string)) : option (Lexed Lexer) :=
          Some (lex_bind r (fun '(t, rest) =>
                  lex_ok (set_begin (set_token (set_input lx rest) t) false))) in
        if isdigit ch then
          finish (lex_bind (ParseNumber (input_ lx)) (fun '(number, rest) =>
                    lex_ok (token_type.Number number, rest)))
        else if isalpha ch || Ascii.eqb ch "_" then
          let '(name, rest) := ParseName (input_ lx) in
          match table_find key_words name with
          | Some t => finish (lex_ok (t, rest))
          | Datatypes.None => finish (lex_ok (token_type.Id name, rest))
          end
        else if Ascii.eqb ch dquote_char || Ascii.eqb ch squote_char then
          finish (lex_bind (ParseString (input_ lx)) (fun '(str, rest) =>
                    lex_ok (token_type.String str, rest)))
        else
          match input_ lx with
          | EmptyString => Some (lex_undefined "unreachable: ch is not eof")
          | String.String c0 rest =>
              let dual := String.String c0 (String.String (peek rest) EmptyString) in
              match table_find dual_symbols dual with
              | Some t =>
                  (* input_.get() extracts the second character, if any *)
                  finish (lex_ok (t, match rest with
                                     | EmptyString => EmptyString
                                     | String.String _ rest' => rest'
                                     end))
              | Datatypes.None => finish (lex_ok (token_type.Char c0, rest))
              end
          end
  end.

(** Every recursive call of [LoadNextToken] has extracted at least one
    character, so the length of the input, plus one, is fuel enough
    ([LoadNextToken_fuel_enough] below). *)
Definition LoadNextToken (lx : Lexer) : Lexed Lexer :=
  match LoadNextToken_fuel (S (String.length (input_ lx))) lx with
  | Some r => r
  | Datatypes.None => lex_undefined "out of fuel"
  end.

(** Modelled from the spec: the member initialisers are in [lexer.h]; the
    spec has [at_line_start] true at construction and both indent counters
    start at zero.  [current_token_] is a default-constructed variant until
    the constructor's [LoadNextToken] assigns it. *)
Definition Lexer_init (input : string) : Lexer :=
  mkLexer input (token_type.Number 0) true 0 0.

(** [Lexer::Lexer] *)
Definition Lexer_new (input : string) : Lexed Lexer :=
  LoadNextToken (Lexer_init input).

(** [Lexer::CurrentToken] *)
Definition CurrentToken (lx : Lexer) : Token := current_token_ lx.

(** [Lexer::NextToken]: the new state and the token returned. *)
Definition NextToken (lx : Lexer) : Lexed (Lexer * Token) :=
  lex_bind (LoadNextToken lx) (fun lx' => lex_ok (lx', current_token_ lx')).

(** [n] successive calls of [NextToken]: the tokens they return, in order. *)
Fixpoint NextTokens (n : nat) (lx : Lexer) : Lexed (Lexer * list Token) :=
  match n with
  | O => lex_ok (lx, [])
  | S n' =>
      lex_bind (NextToken lx) (fun '(lx', t) =>
      lex_bind (NextTokens n' lx') (fun '(lx'', ts) => lex_ok (lx'', t :: ts)))
  end.

End parse.


(* ================================================================= *)
(** ** runtime.cpp *)

Module runtime.

(** The address of a [ClassInstance] object. *)
Definition loc := nat.

(** [runtime.h] declares [Method] with a body of type [Executable], the
    interface with the one virtual function [Execute] that the AST nodes
    implement.  The runtime is generic in it: [E] is the type of
    executables. *)
Record Method (E : Type) := mkMethod {
  name : string;
  formal_params : list string;
  body : E
}.
Arguments mkMethod {E} name formal_params body.
Arguments name {E} m.
Arguments formal_params {E} m.
Arguments body {E} m.

(** [Class]: a name, the methods in declaration order and the parent, if
    any.  Classes do not change once they are built, so a reference to a
    class is modelled by the class. *)
Inductive Class (E : Type) :=
| mkClass (name_ : string) (methods_ : list (Method E)) (parent_ : option (Class E)).
Arguments mkClass {E} name_ methods_ parent_.

Definition name_ {E} (c : Class E) : string := let 'mkClass n _ _ := c in n.
Definition methods_ {E} (c : Class E) : list (Method E) := let 'mkClass _ ms _ := c in ms.
Definition parent_ {E} (c : Class E) : option (Class E) := let 'mkClass _ _ p := c in p.

(** What an [ObjectHolder] points to.  [Number], [String], [Bool] and
    [Class] objects are immutable and are given by their value; a
    [ClassInstance] is mutable and shared, and is given by its address in the
    store of instances. *)
Module Object.
Inductive t (E : Type) :=
| Number (value : Z)
| String (value : string)
| Bool (value : bool)
| Class (cls : Class E)
| ClassInstance (addr : loc).
Arguments Number {E} value.
Arguments String {E} value.
Arguments Bool {E} value.
Arguments Class {E} cls.
Arguments ClassInstance {E} addr.
End Object.
Abbreviation Object := Object.t.

(** [ObjectHolder]: empty, owning ([ObjectHolder::Own]) or non-owning
    ([ObjectHolder::Share]). *)
Module ObjectHolder.
Inductive t (E : Type) :=
| None
| Own (object : Object E)
| Share (object : Object E).
Arguments None {E}.
Arguments Own {E} object.
Arguments Share {E} object.
End ObjectHolder.
Abbreviation ObjectHolder := ObjectHolder.t.

(** [Closure = std::unordered_map<std::string, ObjectHolder>] *)
Abbreviation Closure E := (gmap string (ObjectHolder E)).

(** The [ClassInstance] object itself: its class and its fields. *)
Record ClassInstance (E : Type) := mkClassInstance {
  cls_ : Class E;
  closure_ : Closure E
}.
Arguments mkClassInstance {E} cls_ closure_.
Arguments cls_ {E} c.
Arguments closure_ {E} c.

(** The state a run works on: the instances alive, by address, and the text
    written so far to [context.GetOutputStream()].  The instances are those
    owned outside the closures, as the member [class_instance_] of a
    [NewInstance] node is: they live as long as the run.  The release of an
    object by the last [shared_ptr] that owns it is outside this model. *)
Record State (E : Type) := mkState {
  instances : gmap loc (ClassInstance E);
  output : string
}.
Arguments mkState {E} instances output.
Arguments instances {E} s.
Arguments output {E} s.

(** How a call can end other than by returning. *)
Inductive Abrupt (E : Type) :=
| ThrowsHolder (result : ObjectHolder E)   (* [throw ObjectHolder], the return signal *)
| Throws (e : Exception)
| AssertFailed (what : string)
| Undefined (what : string)
| OutOfFuel.
Arguments ThrowsHolder {E} result.
Arguments Throws {E} e.
Arguments AssertFailed {E} what.
Arguments Undefined {E} what.
Arguments OutOfFuel {E}.

Inductive Outcome (E A : Type) :=
| Returns (a : A)
| Stops (x : Abrupt E).
Arguments Returns {E A} a.
Arguments Stops {E A} x.

(** Computations over a state [S]: the state is threaded through, and it is
    kept when the computation stops abruptly (what was written stays
    written). *)
Definition M (E S A : Type) : Type := S -> Outcome E A * S.

Definition ret {E S A} (a : A) : M E S A := fun s => (Returns a, s).
Definition stop {E S A} (x : Abrupt E) : M E S A := fun s => (Stops x, s).
Definition bind {E S A B} (m : M E S A) (k : A -> M E S B) : M E S B :=
  fun s => match m s with
           | (Returns a, s') => k a s'
           | (Stops x, s') => (Stops x, s')
           end.
Definition gets {E S A} (f : S -> A) : M E S A := fun s => (Returns (f s), s).
Definition modify {E S} (f : S -> S) : M E S unit := fun s => (Returns tt, f s).

Notation "'let*' x := m 'in' k" := (bind m (fun x => k))
  (at level 10, x name, m at level 100, k at level 200, only parsing).

Definition throw_runtime_error {E S A} (what : string) : M E S A :=
  stop (Throws (runtime_error what)).

Section Objects.
Context {E : Type}.

(** [ObjectHolder::operator bool] *)
Definition is_valid (h : ObjectHolder E) : bool :=
  match h with
  | ObjectHolder.None => false
  | _ => true
  end.

(** [ObjectHolder::Get] *)
Definition Get (h : ObjectHolder E) : option (Object E) :=
  match h with
  | ObjectHolder.None => None
  | ObjectHolder.Own o | ObjectHolder.Share o => Some o
  end.

(** [ObjectHolder::TryAs<T>], one per class [T]. *)
Definition TryAs_Number (h : ObjectHolder E) : option Z :=
  match Get h with Some (Object.Number v) => Some v | _ => None end.
Definition TryAs_String (h : ObjectHolder E) : option string :=
  match Get h with Some (Object.String v) => Some v | _ => None end.
Definition TryAs_Bool (h : ObjectHolder E) : option bool :=
  match Get h with Some (Object.Bool v) => Some v | _ => None end.
Definition TryAs_Class (h : ObjectHolder E) : option (Class E) :=
  match Get h with Some (Object.Class c) => Some c | _ => None end.
Definition TryAs_ClassInstance (h : ObjectHolder E) : option loc :=
  match Get h with Some (Object.ClassInstance l) => Some l | _ => None end.

(** [IsTrue] *)
Definition IsTrue (object : ObjectHolder E) : bool :=
  match TryAs_Number object with
  | Some v => negb (v =? 0)%Z
  | None =>
      match TryAs_Bool object with
      | Some v => Bool.eqb v true
      | None =>
          match TryAs_String object with
          | Some v => negb (String.eqb v "")
          | None => false
          end
      end
  end.

(** [Class::GetMethod]: [std::find_if] over the own methods, then the
    parent. *)
Fixpoint GetMethod (c : Class E) (name : string) : option (Method E) :=
  match c with
  | mkClass _ methods parent =>
      match List.find (fun method => String.eqb method.(runtime.name) name) methods with
      | Some method => Some method
      | None =>
          match parent with
          | Some p => GetMethod p name
          | None => None
          end
      end
  end.

(** [ClassInstance::HasMethod] *)
Definition HasMethod (self : ClassInstance E) (method : string) (argument_count : nat) : bool :=
  match GetMethod (cls_ self) method with
  | Some method_ => (List.length (formal_params method_) =? argument_count)%nat
  | None => false
  end.

(** The loop of [ClassInstance::Call]:
    [closure[param] = actual_args.at(index++)] for each formal parameter;
    [None] when [at] throws [std::out_of_range]. *)
Fixpoint bind_params (closure : Closure E) (params : list string)
    (actual_args : list (ObjectHolder E)) (index : nat) : option (Closure E) :=
  match params with
  | [] => Some closure
  | param :: params' =>
      match actual_args !! index with
      | Some arg => bind_params (<[param := arg]> closure) params' actual_args (S index)
      | None => None
      end
  end.

(** [*this] for the instance at an address: the object must be alive. *)
Definition deref {A} (this : loc) (k : ClassInstance E -> M E (State E) A) : M E (State E) A :=
  fun st =>
    match instances st !! this with
    | Some self => k self st
    | None => (Stops (Undefined "dangling ClassInstance"), st)
    end.

(** [ClassInstance::Fields()[field] = value] *)
Definition set_field (this : loc) (field : string) (value : ObjectHolder E) : M E (State E) unit :=
  deref this (fun self =>
    modify (fun st =>
      mkState (<[this := mkClassInstance (cls_ self) (<[field := value]> (closure_ self))]> (instances st))
              (output st))).

(** [std::ostream << int] *)
Definition print_int (v : Z) : string := NilZero.string_of_int (Z.to_int v).

Section Virtual.
(** The two virtual calls of the runtime: [Executable::Execute] on a
    method body, which works on the closure it is given and on the
    state, and [Object::Print] on the result of [__str__]. *)
Variable Execute : E -> M E (Closure E * State E) (ObjectHolder E).
Variable Print_virtual : Object E -> M E (State E) string.
(** [os << this] prints the address of the instance in a way the
    implementation chooses. *)
Variable address_text : loc -> string.

(** [ClassInstance::Call] *)
Definition Call (this : loc) (method : string) (actual_args : list (ObjectHolder E))
    : M E (State E) (ObjectHolder E) :=
  deref this (fun self =>
    if negb (HasMethod self method (List.length actual_args)) then
      throw_runtime_error ("Error calling method " ++ method)
    else
      match GetMethod (cls_ self) method with
      | None => stop (Undefined "null method_")
      | Some method_ =>
          let closure : Closure E :=
            <["self" := ObjectHolder.Share (Object.ClassInstance this)]> ∅ in
          match bind_params closure (formal_params method_) actual_args 0 with
          | None => stop (Throws (out_of_range "vector::at"))
          | Some closure =>
              fun st =>
                (* the local closure dies with the call *)
                let '(r, (_, st')) := Execute (body method_) (closure, st) in
                (r, st')
          end
      end).

(** [ClassInstance::Print]: the text sent to [os]. *)
Definition ClassInstance_Print (this : loc) : M E (State E) string :=
  deref this (fun self =>
    if HasMethod self "__str__" 0 then
      let* result := Call this "__str__" [] in
      match Get result with
      | Some object => Print_virtual object
      | None => stop (AssertFailed "data_ != nullptr")
      end
    else ret (address_text this)).

(** [Object::Print] of each class: the text sent to [os]. *)
Definition Print (object : Object E) : M E (State E) string :=
  match object with
  | Object.Number v => ret (print_int v)
  | Object.String v => ret v
  | Object.Bool v => ret (if v then "True" else "False")
  | Object.Class c => ret ("Class " ++ name_ c)
  | Object.ClassInstance this => ClassInstance_Print this
  end.

(** [Equal] *)
Definition Equal (lhs rhs : ObjectHolder E) : M E (State E) bool :=
  match TryAs_Number lhs, TryAs_Number rhs with
  | Some number_l, Some number_r => ret (number_l =? number_r)%Z
  | _, _ =>
  match TryAs_String lhs, TryAs_String rhs with
  | Some string_l, Some string_r => ret (String.eqb string_l string_r)
  | _, _ =>
  match TryAs_Bool lhs, TryAs_Bool rhs with
  | Some bool_l, Some bool_r => ret (Bool.eqb bool_l bool_r)
  | _, _ =>
  match TryAs_ClassInstance lhs with
  | Some instance =>
      let* result := Call instance "__eq__" [rhs] in ret (IsTrue result)
  | None =>
      if negb (is_valid lhs) && negb (is_valid rhs) then ret true
      else throw_runtime_error "Cannot compare objects for equality"
  end end end end.

(** [Less]; [<] on [std::string] is the lexicographic order of the
    bytes, on [bool] it is [false < true]. *)
Definition Less (lhs rhs : ObjectHolder E) : M E (State E) bool :=
  match TryAs_Number lhs, TryAs_Number rhs with
  | Some number_l, Some number_r => ret (number_l <? number_r)%Z
  | _, _ =>
  match TryAs_String lhs, TryAs_String rhs with
  | Some string_l, Some string_r => ret (String.ltb string_l string_r)
  | _, _ =>
  match TryAs_Bool lhs, TryAs_Bool rhs with
  | Some bool_l, Some bool_r => ret (negb bool_l && bool_r)
  | _, _ =>
  match TryAs_ClassInstance lhs with
  | Some instance =>
      let* result := Call instance "__lt__" [rhs] in ret (IsTrue result)
  | None => throw_runtime_error "Cannot compare objects for less"
  end end end end.

(** [NotEqual] *)
Definition NotEqual (lhs rhs : ObjectHolder E) : M E (State E) bool :=
  let* e := Equal lhs rhs in ret (negb e).

(** [Greater]: [!(Less(..) || Equal(..))]; [||] runs [Equal] only when
    [Less] returned false, in the state [Less] left. *)
Definition Greater (lhs rhs : ObjectHolder E) : M E (State E) bool :=
  let* l := Less lhs rhs in
  let* l_or_e := (if l then ret true else Equal lhs rhs) in
  ret (negb l_or_e).

(** [LessOrEqual] *)
Definition LessOrEqual (lhs rhs : ObjectHolder E) : M E (State E) bool :=
  let* g := Greater lhs rhs in ret (negb g).

(** [GreaterOrEqual] *)
Definition GreaterOrEqual (lhs rhs : ObjectHolder E) : M E (State E) bool :=
  let* l := Less lhs rhs in ret (negb l).

End Virtual.
End Objects.

End runtime.

(* ================================================================= *)
(** ** statement.cpp *)

Module ast.
Import runtime.

(** [Comparator] is a [std::function]; the comparators there are the six
    functions of [runtime.cpp]. *)
Module Comparator.
Inductive t := Equal | Less | NotEqual | Greater | LessOrEqual | GreaterOrEqual.
End Comparator.
Abbreviation Comparator := Comparator.t.

(** The AST nodes, each with its data members.  A [NewInstance] node has a
    [ClassInstance] object as a member, [class_instance_]: the node is given
    with the address of that object, which lives as long as the node.
    [FieldAssignment] holds its [VariableValue] by its dotted identifiers.

    Modelled from the spec: the literal nodes [NumericConst], [StringConst],
    [BoolConst] and [None] are defined in [statement.h], which is not among
    the sources. *)
Module Statement.
Inductive t :=
| NumericConst (value_ : Z)
| StringConst (value_ : string)
| BoolConst (value_ : bool)
| None
| VariableValue (dotted_ids_ : list string)
| Assignment (var_ : string) (rv_ : t)
| FieldAssignment (object_ : list string) (field_name_ : string) (rv_ : t)
| Print (args_ : list t)
| MethodCall (object_ : t) (method_ : string) (args_ : list t)
| MethodBody (body_ : t)
| Return (statement_ : t)
| ClassDefinition (cls_ : ObjectHolder t)
| NewInstance (class_instance_ : loc) (args_ : list t)
| Stringify (argument_ : t)
| Add (lhs_ rhs_ : t)
| Sub (lhs_ rhs_ : t)
| Mult (lhs_ rhs_ : t)
| Div (lhs_ rhs_ : t)
| Or (lhs_ rhs_ : t)
| And (lhs_ rhs_ : t)
| Not (argument_ : t)
| Comparison (cmp_ : Comparator) (lhs_ rhs_ : t)
| Compound (args_ : list t)
| IfElse (condition_ if_body_ : t) (else_body_ : option t).
End Statement.
Abbreviation Statement := Statement.t.

Abbreviation Holder := (ObjectHolder Statement).
Abbreviation Closure := (gmap string (ObjectHolder Statement)).
Abbreviation State := (runtime.State Statement).

(** [Execute(Closure& closure, Context& context)]: a computation on the
    closure passed by reference and on the state. *)
Abbreviation Exec A := (M Statement (Closure * State) A).

Definition ADD_METHOD : string := "__add__".
Definition INIT_METHOD : string := "__init__".

(** A runtime function, which takes the context only, called from
    [Execute]: the closure stays as it is. *)
Definition with_context {A} (m : M Statement State A) : Exec A :=
  fun s => let '(r, st') := m (snd s) in (r, (fst s, st')).

(** [closure[name] = value] *)
Definition closure_set (name : string) (value : Holder) : Exec unit :=
  modify (fun s => (<[name := value]> (fst s), snd s)).

(** [out << text] on [context.GetOutputStream()] *)
Definition write (text : string) : Exec unit :=
  modify (fun s => (fst s, mkState (instances (snd s)) (output (snd s) ++ text))).

(** The result of arithmetic on two [int]s; signed overflow is undefined. *)
Definition int_result (v : Z) : Exec Holder :=
  if (parse.INT_MIN <=? v)%Z && (v <=? parse.INT_MAX)%Z
  then ret (ObjectHolder.Own (Object.Number v))
  else stop (Undefined "signed integer overflow").

(** [VariableValue::Execute]: it recurses on the rest of the path with the
    fields of the instance as the closure, and only reads. *)
Fixpoint VariableValue_lookup (instances : gmap loc (ClassInstance Statement))
    (dotted_ids : list string) (closure : Closure) : Outcome Statement Holder :=
  match dotted_ids with
  | [] => Stops (Undefined "dotted_ids_[0] of an empty vector")
  | id0 :: rest =>
      match closure !! id0 with
      | Some variable =>
          match rest with
          | [] => Returns variable
          | _ :: _ =>
              match TryAs_ClassInstance variable with
              | Some object =>
                  match instances !! object with
                  | Some self => VariableValue_lookup instances rest (closure_ self)
                  | Datatypes.None => Stops (Undefined "dangling ClassInstance")
                  end
              | Datatypes.None => Stops (Throws (runtime_error "Error cast to ClassInstance"))
              end
          end
      | Datatypes.None => Stops (Throws (runtime_error "Variable not found"))
      end
  end.

Definition VariableValue_Execute (dotted_ids : list string) : Exec Holder :=
  fun s => (VariableValue_lookup (instances (snd s)) dotted_ids (fst s), s).

Section Nodes.
(** The virtual calls: [Execute] on the child nodes and on method bodies,
    [Print] on objects. *)
Variable exec : Statement -> Exec Holder.
Variable print : Object Statement -> M Statement State string.

(** [for (arg : args_) actual_args.push_back(arg->Execute(closure, context))] *)
Fixpoint Execute_args (args : list Statement) : Exec (list Holder) :=
  match args with
  | [] => ret []
  | arg :: args' =>
      let* value := exec arg in
      let* values := Execute_args args' in
      ret (value :: values)
  end.

(** The loop of [Print::Execute]. *)
Fixpoint Print_args (isFirst : bool) (args : list Statement) : Exec unit :=
  match args with
  | [] => ret tt
  | arg :: args' =>
      let* _ := (if isFirst then ret tt else write " ") in
      let* object := exec arg in
      let* _ := match Get object with
                | Some o => let* text := with_context (print o) in write text
                | Datatypes.None => write "None"
                end in
      Print_args false args'
  end.

(** The loop of [Compound::Execute]. *)
Fixpoint Compound_args (args : list Statement) : Exec unit :=
  match args with
  | [] => ret tt
  | arg :: args' => let* _ := exec arg in Compound_args args'
  end.

(** [cmp_(lhs, rhs, context)] *)
Definition compare (cmp : Comparator) (lhs rhs : Holder) : M Statement State bool :=
  match cmp with
  | Comparator.Equal => Equal exec lhs rhs
  | Comparator.Less => Less exec lhs rhs
  | Comparator.NotEqual => NotEqual exec lhs rhs
  | Comparator.Greater => Greater exec lhs rhs
  | Comparator.LessOrEqual => LessOrEqual exec lhs rhs
  | Comparator.GreaterOrEqual => GreaterOrEqual exec lhs rhs
  end.

(** [MethodBody::Execute]: [catch (ObjectHolder result)]. *)
Definition catch_holder (m : Exec Holder) : Exec Holder :=
  fun s => match m s with
           | (Stops (ThrowsHolder result), s') => (Returns result, s')
           | r => r
           end.

(** [Execute] of each node, one level deep.  [Sub], [Mult] and [Div] read
    their operands through the [Number*] of a holder that is gone by then:
    the result given here is the one for operands whose object has another
    owner at that point (a constant node, a binding of the closure, a
    field). *)
Definition Execute_node (s : Statement) : Exec Holder :=
  match s with
  | Statement.NumericConst v => ret (ObjectHolder.Own (Object.Number v))
  | Statement.StringConst v => ret (ObjectHolder.Own (Object.String v))
  | Statement.BoolConst v => ret (ObjectHolder.Own (Object.Bool v))
  | Statement.None => ret ObjectHolder.None
  | Statement.VariableValue dotted_ids_ => VariableValue_Execute dotted_ids_
  | Statement.Assignment var_ rv_ =>
      let* value := exec rv_ in
      let* _ := closure_set var_ value in
      ret value
  | Statement.FieldAssignment object_ field_name_ rv_ =>
      let* holder := VariableValue_Execute object_ in
      match TryAs_ClassInstance holder with
      | Some object =>
          let* value := exec rv_ in
          let* _ := with_context (set_field object field_name_ value) in
          ret value
      | Datatypes.None => throw_runtime_error "Error cast to ClassInstance"
      end
  | Statement.Print args_ =>
      let* _ := Print_args true args_ in
      let* _ := write (String.String parse.newline_char EmptyString) in
      ret ObjectHolder.None
  | Statement.MethodCall object_ method_ args_ =>
      let* holder := exec object_ in
      match TryAs_ClassInstance holder with
      | Some object =>
          let* actual_args := Execute_args args_ in
          with_context (Call exec object method_ actual_args)
      | Datatypes.None => throw_runtime_error "Error cast to ClassInstance"
      end
  | Statement.MethodBody body_ => catch_holder (exec body_)
  | Statement.Return statement_ =>
      let* result := exec statement_ in
      stop (ThrowsHolder result)
  | Statement.ClassDefinition cls_ =>
      match TryAs_Class cls_ with
      | Some cls =>
          let* _ := closure_set (name_ cls) cls_ in
          ret ObjectHolder.None
      | Datatypes.None => stop (Undefined "cls is null")
      end
  | Statement.NewInstance class_instance_ args_ =>
      let* has_init := with_context (deref class_instance_ (fun self =>
                         ret (HasMethod self INIT_METHOD (List.length args_)))) in
      let* _ := (if has_init : bool then
                   let* actual_args := Execute_args args_ in
                   let* _ := with_context (Call exec class_instance_ INIT_METHOD actual_args) in
                   ret tt
                 else ret tt) in
      ret (ObjectHolder.Share (Object.ClassInstance class_instance_))
  | Statement.Stringify argument_ =>
      let* object := exec argument_ in
      match Get object with
      | Some o =>
          let* text := with_context (print o) in
          ret (ObjectHolder.Own (Object.String text))
      | Datatypes.None => ret (ObjectHolder.Own (Object.String "None"))
      end
  | Statement.Add lhs_ rhs_ =>
      let* lhs_object := exec lhs_ in
      let* rhs_object := exec rhs_ in
      match TryAs_Number lhs_object, TryAs_Number rhs_object with
      | Some lhs_number, Some rhs_number => int_result (lhs_number + rhs_number)
      | _, _ =>
      match TryAs_String lhs_object, TryAs_String rhs_object with
      | Some lhs_string, Some rhs_string =>
          ret (ObjectHolder.Own (Object.String (lhs_string ++ rhs_string)))
      | _, _ =>
      match TryAs_ClassInstance lhs_object with
      | Some lhs_class_instance =>
          with_context (Call exec lhs_class_instance ADD_METHOD [rhs_object])
      | Datatypes.None => throw_runtime_error "Error addition"
      end end end
  | Statement.Sub lhs_ rhs_ =>
      let* lhs_object := exec lhs_ in
      let* rhs_object := exec rhs_ in
      match TryAs_Number lhs_object, TryAs_Number rhs_object with
      | Some lhs_number, Some rhs_number => int_result (lhs_number - rhs_number)
      | _, _ => throw_runtime_error "Error subtration"
      end
  | Statement.Mult lhs_ rhs_ =>
      let* lhs_object := exec lhs_ in
      let* rhs_object := exec rhs_ in
      match TryAs_Number lhs_object, TryAs_Number rhs_object with
      | Some lhs_number, Some rhs_number => int_result (lhs_number * rhs_number)
      | _, _ => throw_runtime_error "Error multiplication"
      end
  | Statement.Div lhs_ rhs_ =>
      let* lhs_object := exec lhs_ in
      let* rhs_object := exec rhs_ in
      match TryAs_Number lhs_object, TryAs_Number rhs_object with
      | Some lhs_number, Some rhs_number =>
          if (rhs_number =? 0)%Z then throw_runtime_error "Division by zero"
          else int_result (Z.quot lhs_number rhs_number)
      | _, _ => throw_runtime_error "Error division"
      end
  | Statement.Or lhs_ rhs_ =>
      let* lhs_object := exec lhs_ in
      if IsTrue lhs_object then ret (ObjectHolder.Own (Object.Bool true))
      else
        let* rhs_object := exec rhs_ in
        ret (ObjectHolder.Own (Object.Bool (IsTrue rhs_object)))
  | Statement.And lhs_ rhs_ =>
      let* lhs_object := exec lhs_ in
      if IsTrue lhs_object then
        let* rhs_object := exec rhs_ in
        ret (ObjectHolder.Own (Object.Bool (IsTrue rhs_object)))
      else ret (ObjectHolder.Own (Object.Bool false))
  | Statement.Not argument_ =>
      let* object := exec argument_ in
      ret (ObjectHolder.Own (Object.Bool (negb (IsTrue object))))
  | Statement.Comparison cmp_ lhs_ rhs_ =>
      let* object_lhs := exec lhs_ in
      let* object_rhs := exec rhs_ in
      let* result := with_context (compare cmp_ object_lhs object_rhs) in
      ret (ObjectHolder.Own (Object.Bool result))
  | Statement.Compound args_ =>
      let* _ := Compound_args args_ in
      ret ObjectHolder.None
  | Statement.IfElse condition_ if_body_ else_body_ =>
      let* condition := exec condition_ in
      if IsTrue condition then exec if_body_
      else match else_body_ with
           | Some else_body => exec else_body
           | Datatypes.None => ret ObjectHolder.None
           end
  end.
End Nodes.

Section Run.
(** [os << this] for a [ClassInstance] without [__str__]. *)
Variable address_text : loc -> string.

(** [Object::Print] with [fuel] bounding the chain of [__str__] results
    that are instances themselves. *)
Fixpoint Print_fuel (exec : Statement -> Exec Holder) (fuel : nat)
    (object : Object Statement) : M Statement State string :=
  match fuel with
  | O => stop OutOfFuel
  | S fuel' => Print exec (Print_fuel exec fuel') address_text object
  end.

(** [Statement::Execute]: [fuel] bounds the depth of the nested [Execute]
    calls. *)
Fixpoint Execute (fuel : nat) (s : Statement) : Exec Holder :=
  match fuel with
  | O => stop OutOfFuel
  | S fuel' => Execute_node (Execute fuel') (Print_fuel (Execute fuel') fuel') s
  end.
End Run.

End ast.

(* ================================================================= *)
(** ** lexer.cpp: the operators on tokens *)

Module token_ops.
Import parse.

(** [Token::index()]: the position of the alternative in the variant.
    Modelled from the spec: the variant is declared in [lexer.h]; the spec
    lists its alternatives in this order. *)
Definition index (t : Token) : nat :=
  match t with
  | token_type.Number _ => 0 | token_type.Id _ => 1
  | token_type.String _ => 2 | token_type.Char _ => 3
  | token_type.Class => 4 | token_type.Return => 5 | token_type.If => 6
  | token_type.Else => 7 | token_type.Def => 8 | token_type.Newline => 9
  | token_type.Print => 10 | token_type.Indent => 11 | token_type.Dedent => 12
  | token_type.And => 13 | token_type.Or => 14 | token_type.Not => 15
  | token_type.Eq => 16 | token_type.NotEq => 17 | token_type.LessOrEq => 18
  | token_type.GreaterOrEq => 19 | token_type.None => 20
  | token_type.True => 21 | token_type.False => 22 | token_type.Eof => 23
  end.

(** [operator==(const Token&, const Token&)]: past the test of the indices
    both tokens hold the same alternative, so [rhs.As<T>()] succeeds. *)
Definition Token_eq (lhs rhs : Token) : bool :=
  if negb (index lhs =? index rhs)%nat then false
  else
    match lhs, rhs with
    | token_type.Char l, token_type.Char r => Ascii.eqb l r
    | token_type.Number l, token_type.Number r => (l =? r)%Z
    | token_type.String l, token_type.String r => String.eqb l r
    | token_type.Id l, token_type.Id r => String.eqb l r
    | _, _ => true
    end.

(** [operator!=(const Token&, const Token&)] *)
Definition Token_ne (lhs rhs : Token) : bool := negb (Token_eq lhs rhs).

(** [os << '{' << value << '}'] after the name of the alternative. *)
Definition valued (type value : string) : string :=
  type ++ String.String "{" (value ++ String.String "}" EmptyString).

(** [operator<<(std::ostream&, const Token&)]: the text sent to [os]; an
    [int] is written in decimal. *)
Definition Token_print (rhs : Token) : string :=
  match rhs with
  | token_type.Number value => valued "Number" (NilZero.string_of_int (Z.to_int value))
  | token_type.Id value => valued "Id" value
  | token_type.String value => valued "String" value
  | token_type.Char value => valued "Char" (String.String value EmptyString)
  | token_type.Class => "Class" | token_type.Return => "Return"
  | token_type.If => "If" | token_type.Else => "Else" | token_type.Def => "Def"
  | token_type.Newline => "Newline" | token_type.Print => "Print"
  | token_type.Indent => "Indent" | token_type.Dedent => "Dedent"
  | token_type.And => "And" | token_type.Or => "Or" | token_type.Not => "Not"
  | token_type.Eq => "Eq" | token_type.NotEq => "NotEq"
  | token_type.LessOrEq => "LessOrEq" | token_type.GreaterOrEq => "GreaterOrEq"
  | token_type.None => "None" | token_type.True => "True"
  | token_type.False => "False" | token_type.Eof => "Eof"
  end.

End token_ops.

(* ================================================================= *)
(** ** Notions used to state more properties of the lexer *)

Module parse_notions.
Import parse.

(** Every character of the text satisfies [P]. *)
Fixpoint all_chars (P : ascii -> bool) (text : string) : bool :=
  match text with
  | EmptyString => true
  | String.String c text' => P c && all_chars P text'
  end.

(** The text is empty or starts with a character that does not satisfy [P]. *)
Definition stops (P : ascii -> bool) (text : string) : bool :=
  match text with
  | EmptyString => true
  | String.String c _ => negb (P c)
  end.

Definition is_space (c : ascii) : bool := Ascii.eqb c " ".
Definition is_name_char (c : ascii) : bool := isalnum c || Ascii.eqb c "_".
Definition not_newline (c : ascii) : bool := negb (Ascii.eqb c newline_char).

(** What may stand on a line before its newline for the line to hold no
    token: nothing, or a comment, [#] and any text. *)
Definition comment_or_nothing (text : string) : bool :=
  match text with
  | EmptyString => true
  | String.String c text' => Ascii.eqb c "#" && all_chars not_newline text'
  end.

(** A line without a token: spaces, an optional comment, the newline. *)
Definition tokenless_line (spaces comment : string) : string :=
  spaces ++ comment ++ String.String newline_char EmptyString.

(** A bound on the calls of [NextToken] before Eof: two for each character
    left, one for each level to close, one for the Newline owed to an open
    line, and two for each level still to open on the current line. *)
Definition rank (lx : Lexer) : nat :=
  2 * String.length (input_ lx) + indent_pos_ lx +
  (if begin_ lx then 0 else 1) +
  (if begin_ lx && negb (is_eof_char (peek (input_ lx)))
   then 2 * (indents_ lx - indent_pos_ lx) else 0).

(** How many of the tokens are [Indent], how many are [Dedent]. *)
Definition is_Indent (t : Token) : bool :=
  match t with token_type.Indent => true | _ => false end.
Definition is_Dedent (t : Token) : bool :=
  match t with token_type.Dedent => true | _ => false end.
Definition count (P : Token -> bool) (ts : list Token) : nat :=
  List.length (List.filter P ts).

End parse_notions.

Module parse_builds.
Import parse.

(** The loop of [Lexer::ParseString] as it is compiled with [NDEBUG]
    defined: [assert(c == start)] expands to nothing, so that [line] is
    returned also when the loop ended because [input.get(c)] failed, and [c]
    is never read after the loop. *)
Fixpoint ParseString_loop_NDEBUG (start : ascii) (line : string) (input : string)
    : Lexed (string * string) :=
  match input with
  | EmptyString => lex_ok (line, EmptyString)
  | String.String c' rest =>
      if Ascii.eqb c' backslash_char then
        match rest with
        | EmptyString => lex_undefined "read of uninitialised next"
        | String.String next rest' =>
            let line' :=
              if Ascii.eqb next dquote_char then push_back line dquote_char
              else if Ascii.eqb next squote_char then push_back line squote_char
              else if Ascii.eqb next "n" then push_back line newline_char
              else if Ascii.eqb next "t" then push_back line tab_char
              else line in
            ParseString_loop_NDEBUG start line' rest'
        end
      else if Ascii.eqb c' start then lex_ok (line, rest)
      else ParseString_loop_NDEBUG start (push_back line c') rest
  end.

(** [Lexer::ParseString] compiled with [NDEBUG] defined. *)
Definition ParseString_NDEBUG (input : string) : Lexed (string * string) :=
  match input with
  | EmptyString => lex_undefined "input.get() at end of input"
  | String.String start rest => ParseString_loop_NDEBUG start EmptyString rest
  end.

End parse_builds.

(* ================================================================= *)
(** ** Inputs and notions used to state the properties of the lexer *)

Module parse_examples.
Import parse.

Definition line (text : string) : string :=
  text ++ String.String newline_char EmptyString.

(** The two lines [if x:] and [  print x], each ended by a newline. *)
Definition indentation_source : string := line "if x:" ++ line "  print x".

(** The source text of the literal ["a\tb\n"]: a quote, [a], a backslash,
    [t], [b], a backslash, [n], a quote. *)
Definition escapes_source : string :=
  String.String dquote_char
    ("a" ++ String.String backslash_char ("tb" ++ String.String backslash_char
       ("n" ++ String.String dquote_char EmptyString))).

(** The text of the token: [a], a tab, [b], a newline. *)
Definition escapes_contents : string :=
  String.String "a" (String.String tab_char (String.String "b"
    (String.String newline_char EmptyString))).

(** The body of a string literal, piece by piece: a character written as
    it is, or an escape sequence, a backslash and the character [next]. *)
Inductive piece :=
| Plain (c : ascii)
| Escape (next : ascii).

(** A character written as it is can be neither the backslash nor the quote
    [start] that opened the literal. *)
Definition piece_ok (start : ascii) (p : piece) : bool :=
  match p with
  | Plain c => negb (Ascii.eqb c backslash_char) && negb (Ascii.eqb c start)
  | Escape _ => true
  end.

(** The source text of a piece. *)
Definition piece_source (p : piece) : string :=
  match p with
  | Plain c => String.String c EmptyString
  | Escape next => String.String backslash_char (String.String next EmptyString)
  end.

(** What a piece stands for in the contents of the token: the four known
    escapes stand for one character each, any other escape for nothing. *)
Definition piece_contents (p : piece) : string :=
  match p with
  | Plain c => String.String c EmptyString
  | Escape next =>
      if Ascii.eqb next dquote_char then String.String dquote_char EmptyString
      else if Ascii.eqb next squote_char then String.String squote_char EmptyString
      else if Ascii.eqb next "n" then String.String newline_char EmptyString
      else if Ascii.eqb next "t" then String.String tab_char EmptyString
      else EmptyString
  end.

Fixpoint body_source (body : list piece) : string :=
  match body with
  | [] => EmptyString
  | p :: body' => piece_source p ++ body_source body'
  end.

Fixpoint body_contents (body : list piece) : string :=
  match body with
  | [] => EmptyString
  | p :: body' => piece_contents p ++ body_contents body'
  end.

(** The literal opened and closed by [start] with that body, followed by
    [rest]. *)
Definition literal (start : ascii) (body : list piece) (rest : string) : string :=
  String.String start (body_source body ++ String.String start rest).

(** The pieces of a text without escapes. *)
Fixpoint plain (text : string) : list piece :=
  match text with
  | EmptyString => []
  | String.String c text' => Plain c :: plain text'
  end.

(** A lexer at the end of its input. *)
Definition at_end (begin : bool) (indents indent_pos : nat) : Lexer :=
  mkLexer EmptyString (token_type.Number 0) begin indents indent_pos.

End parse_examples.

(* ================================================================= *)
(** ** Results and fuel *)

Module fuel_order.
Import runtime.

(** A run that did not stop for lack of fuel. *)
Definition finished {E A S} (r : Outcome E A * S) : Prop :=
  fst r <> Stops OutOfFuel.

(** [r2] is what [r1] becomes with more fuel: the same, unless [r1] ran out
    of fuel. *)
Definition extends {E A S} (r1 r2 : Outcome E A * S) : Prop :=
  fst r1 = Stops OutOfFuel \/ r1 = r2.

Definition m_extends {E S A} (m1 m2 : M E S A) : Prop :=
  forall s, extends (m1 s) (m2 s).

(** [Execute] run with enough fuel: the big-step evaluation of a node. *)
Definition Executes (address_text : loc -> string) (s : ast.Statement)
    (before : ast.Closure * ast.State)
    (r : Outcome ast.Statement ast.Holder * (ast.Closure * ast.State)) : Prop :=
  exists fuel, ast.Execute address_text fuel s before = r /\ finished r.

End fuel_order.

(* ================================================================= *)
(** ** The runtime as the specification words it *)

Module runtime_spec.
Import runtime.

Section Spec.
Context {E : Type}.
Variable Execute : E -> M E (Closure E * State E) (ObjectHolder E).

(** The methods a lookup goes through, in order: the methods of the class,
    then those of its parent, and so on up the chain. *)
Fixpoint lookup_chain (c : Class E) : list (Method E) :=
  match c with
  | mkClass _ methods parent =>
      (methods ++ match parent with
                  | Some p => lookup_chain p
                  | None => []
                  end)%list
  end.

(** The first method of that name on the chain. *)
Definition first_named (c : Class E) (name : string) : option (Method E) :=
  List.find (fun method => String.eqb method.(runtime.name) name) (lookup_chain c).

(** The closure of a call: [self], then each formal parameter bound, in
    order, to the actual argument at the same position. *)
Definition call_closure (this : loc) (params : list string)
    (actual_args : list (ObjectHolder E)) : Closure E :=
  List.fold_left (fun closure pa => <[fst pa := snd pa]> closure)
    (List.combine params actual_args)
    (<["self" := ObjectHolder.Share (Object.ClassInstance this)]> ∅).

(** The class has, itself or by inheritance, a method of that name with
    that many formal parameters. *)
Definition declares (c : Class E) (name : string) (arity : nat) : bool :=
  List.existsb
    (fun method => String.eqb method.(runtime.name) name &&
                   (List.length (formal_params method) =? arity)%nat)
    (lookup_chain c).

Definition method_error {A} (method : string) : M E (State E) A :=
  stop (Throws (runtime_error ("Error calling method " ++ method))).

(** [ClassInstance::Call] on the instance [self] at the address [this]. *)
Definition Call_spec (this : loc) (self : ClassInstance E) (method : string)
    (actual_args : list (ObjectHolder E)) : M E (State E) (ObjectHolder E) :=
  match first_named (cls_ self) method with
  | Some m =>
      if (List.length (formal_params m) =? List.length actual_args)%nat then
        fun st =>
          let '(r, (_, st')) :=
            Execute (body m) (call_closure this (formal_params m) actual_args, st) in
          (r, st')
      else method_error method
  | None => method_error method
  end.

(** [Equal], case by case on what the two holders hold. *)
Definition Equal_spec (lhs rhs : ObjectHolder E) : M E (State E) bool :=
  match Get lhs, Get rhs with
  | Some (Object.Number l), Some (Object.Number r) => ret (l =? r)%Z
  | Some (Object.String l), Some (Object.String r) => ret (String.eqb l r)
  | Some (Object.Bool l), Some (Object.Bool r) => ret (Bool.eqb l r)
  | None, None => ret true
  | Some (Object.ClassInstance instance), _ =>
      let* result := Call Execute instance "__eq__" [rhs] in
      ret (IsTrue result)
  | _, _ => throw_runtime_error "Cannot compare objects for equality"
  end.
End Spec.

End runtime_spec.

(* ================================================================= *)
(** ** Programs and states used to instantiate the properties *)

Module scenarios.
Import runtime ast.

(** A stand-in for the way the platform prints an address. *)
Definition address_text (l : loc) : string := "<instance>".

Definition empty_state : State := mkState ∅ "".

(** [class A: def f(self): return 1] and
    [class B(A): def f(self, x): return x]. *)
Definition class_A : Class Statement :=
  mkClass "A"
    [mkMethod "f" [] (Statement.MethodBody (Statement.Return (Statement.NumericConst 1)))]
    None.

Definition class_B : Class Statement :=
  mkClass "B"
    [mkMethod "f" ["x"]
       (Statement.MethodBody (Statement.Return (Statement.VariableValue ["x"])))]
    (Some class_A).

Definition instance_B : ClassInstance Statement := mkClassInstance class_B ∅.

(** One instance of [B], at the address 1. *)
Definition state_B : State := mkState {[ 1 := instance_B ]} "".

(** [[
class X:
  def __eq__(self, other): return True
  def __lt__(self, other): return False
]] *)
Definition class_X : Class Statement :=
  mkClass "X"
    [mkMethod "__eq__" ["other"]
       (Statement.MethodBody (Statement.Return (Statement.BoolConst true)));
     mkMethod "__lt__" ["other"]
       (Statement.MethodBody (Statement.Return (Statement.BoolConst false)))]
    None.

(** One instance of [X], at the address 3. *)
Definition state_X : State := mkState {[ 3 := mkClassInstance class_X ∅ ]} "".

(** [class Child(A): pass], and one instance of it at the address 4. *)
Definition class_Child : Class Statement := mkClass "Child" [] (Some class_A).

Definition state_Child : State := mkState {[ 4 := mkClassInstance class_Child ∅ ]} "".

(** The method body [return 2 + 3 * 4]. *)
Definition return_14 : Statement :=
  Statement.MethodBody
    (Statement.Return
       (Statement.Add (Statement.NumericConst 2)
          (Statement.Mult (Statement.NumericConst 3) (Statement.NumericConst 4)))).

(** A right operand with an effect one can see: [print 'evaluated']. *)
Definition noisy : Statement := Statement.Print [Statement.StringConst "evaluated"].

(** An argument that fails when it is evaluated: [1 / 0]. *)
Definition failing : Statement :=
  Statement.Div (Statement.NumericConst 1) (Statement.NumericConst 0).

(** [[
class Counter:
  def __init__(self, first):
    if first:
      self.count = 0
    else:
      self.count = self.count + 1
]] *)
Definition class_Counter : Class Statement :=
  mkClass "Counter"
    [mkMethod "__init__" ["first"]
       (Statement.MethodBody
          (Statement.IfElse (Statement.VariableValue ["first"])
             (Statement.FieldAssignment ["self"] "count" (Statement.NumericConst 0))
             (Some (Statement.FieldAssignment ["self"] "count"
                      (Statement.Add (Statement.VariableValue ["self"; "count"])
                                     (Statement.NumericConst 1))))))]
    None.

Definition instance_Counter : ClassInstance Statement := mkClassInstance class_Counter ∅.

(** The instances inside the two [NewInstance] nodes below: a [B] at the
    address 1 and a [Counter] at the address 2, both without fields yet. *)
Definition state_nodes : State :=
  mkState (<[ 2 := instance_Counter ]> {[ 1 := instance_B ]}) "".


(** The node [B()]. *)
Definition new_B : Statement := Statement.NewInstance 1 [].

(** The node [Counter(first)]. *)
Definition new_Counter : Statement :=
  Statement.NewInstance 2 [Statement.VariableValue ["first"]].

(** The node [B()] executed twice, with a field written in between:
    [x = B(); x.f = 5; y = B(); print y.f]. *)
Definition twice_B : Statement :=
  Statement.Compound
    [Statement.Assignment "x" new_B;
     Statement.FieldAssignment ["x"] "f" (Statement.NumericConst 5);
     Statement.Assignment "y" new_B;
     Statement.Print [Statement.VariableValue ["y"; "f"]]].

(** The node [Counter(first)] executed twice:
    [first = True; a = Counter(first); first = False; b = Counter(first);
     print a.count, b.count]. *)
Definition twice_Counter : Statement :=
  Statement.Compound
    [Statement.Assignment "first" (Statement.BoolConst true);
     Statement.Assignment "a" new_Counter;
     Statement.Assignment "first" (Statement.BoolConst false);
     Statement.Assignment "b" new_Counter;
     Statement.Print [Statement.VariableValue ["a"; "count"];
                      Statement.VariableValue ["b"; "count"]]].

Definition output_of (r : Outcome Statement Holder * (Closure * State)) : string :=
  output (snd (snd r)).



(** A closure with a number, the empty holder and a [Bool]. *)
Definition closure_xyz : Closure :=
  <["x" := ObjectHolder.Own (Object.Number 57)]>
    (<["y" := ObjectHolder.None]>
       (<["z" := ObjectHolder.Own (Object.Bool true)]> ∅)).

End scenarios.

(* ================================================================= *)
(** ** Notions used to state more properties of the runtime and the evaluator *)

Module evaluator_notions.
Import runtime ast.

(** Two holders of values of one class among [Number], [String], [Bool]. *)
Definition both_values {E} (lhs rhs : ObjectHolder E) : bool :=
  match Get lhs, Get rhs with
  | Some (Object.Number _), Some (Object.Number _) => true
  | Some (Object.String _), Some (Object.String _) => true
  | Some (Object.Bool _), Some (Object.Bool _) => true
  | _, _ => false
  end.

(** What the instances and the output of a later state owe to an earlier
    one: an instance of the later state is at an address that held an
    instance before, of the same class, and the output starts with the
    earlier output. *)
Definition grows_from {E} (before after : runtime.State E) : Prop :=
  (forall l self', instances after !! l = Some self' ->
     exists self, instances before !! l = Some self /\ cls_ self' = cls_ self) /\
  exists more, output after = (output before ++ more)%string.

(** A computation on the state keeps a relation between the state it starts
    from and the state it ends in, however it ends. *)
Definition keeps {E S A} (R : S -> S -> Prop) (m : M E S A) : Prop :=
  forall s, R s (snd (m s)).

(** The relation on the state, for [Execute], which has the closure too. *)
Definition on_state {E} (R : runtime.State E -> runtime.State E -> Prop)
    (s s' : runtime.Closure E * runtime.State E) : Prop :=
  R (snd s) (snd s').

(** The text [Print] writes for what a holder holds, when that is not a
    class instance: [None] for the empty holder, then [Object::Print] of
    [Number], [String], [Bool] and [Class]. *)
Definition plain_text (h : Holder) : string :=
  match Get h with
  | None => "None"
  | Some (Object.Number v) => print_int v
  | Some (Object.String v) => v
  | Some (Object.Bool v) => if v then "True" else "False"
  | Some (Object.Class c) => "Class " ++ name_ c
  | Some (Object.ClassInstance _) => ""
  end.

Definition is_instance (h : Holder) : bool :=
  match TryAs_ClassInstance h with Some _ => true | None => false end.

(** The texts, with one space between two of them. *)
Fixpoint spaced (texts : list string) : string :=
  match texts with
  | [] => ""
  | [text] => text
  | text :: texts' => text ++ " " ++ spaced texts'
  end.

(** The state with more text written to the output. *)
Definition written (st : State) (text : string) : State :=
  mkState (instances st) (output st ++ text).

(** The nodes [print x1, ..., xn] with names for arguments. *)
Definition print_names (names : list string) : Statement :=
  Statement.Print (List.map (fun name => Statement.VariableValue [name]) names).

(** The operands of the nodes that evaluate a left operand first. *)
Definition operands (s : Statement) : option (Statement * Statement) :=
  match s with
  | Statement.Add lhs rhs | Statement.Sub lhs rhs | Statement.Mult lhs rhs
  | Statement.Div lhs rhs | Statement.Or lhs rhs | Statement.And lhs rhs
  | Statement.Comparison _ lhs rhs => Some (lhs, rhs)
  | _ => None
  end.

End evaluator_notions.

(* ================================================================= *)
(** * Properties of the lexer *)

Module parse_facts.
Import parse.

Lemma get_while_rest_length P input :
  String.length (snd (get_while P input)) <= String.length input.
Proof.
  induction input as [|c rest IH]; simpl; [lia|].
  destruct (P c); simpl; [|lia].
  destruct (get_while P rest) as [acc rest']; simpl in *; lia.
Qed.

Lemma get_while_rest_shorter P c rest :
  P c = true ->
  String.length (snd (get_while P (String.String c rest))) < String.length (String.String c rest).
Proof.
  intros HP. simpl. rewrite HP.
  pose proof (get_while_rest_length P rest) as Hle.
  destruct (get_while P rest) as [acc rest']; simpl in *; lia.
Qed.

Lemma peek_cons_inv input ch :
  peek input = ch -> is_eof_char ch = false ->
  exists rest, input = String.String ch rest.
Proof.
  destruct input as [|c rest]; simpl; intros <- Hne.
  - discriminate.
  - eauto.
Qed.

Lemma CountSpaces_input lx :
  input_ (CountSpaces lx) = snd (get_while (fun c => Ascii.eqb c " ") (input_ lx)).
Proof.
  unfold CountSpaces.
  destruct (get_while _ (input_ lx)) as [spaces rest]; simpl.
  destruct (begin_ lx); reflexivity.
Qed.

(** [LoadNextToken] terminates: each of its calls to itself comes after at
    least one character was extracted. *)
Lemma LoadNextToken_fuel_enough fuel lx :
  String.length (input_ lx) < fuel ->
  exists r, LoadNextToken_fuel fuel lx = Some r.
Proof.
  revert lx. induction fuel as [|fuel IH]; intros lx Hlen; [lia|].
  cbn [LoadNextToken_fuel].
  destruct (is_eof_char (peek (input_ lx))) eqn:Heof.
  { destruct (negb (begin_ lx)); [eauto|]. destruct (0 <? indent_pos_ lx)%nat; eauto. }
  destruct (peek_cons_inv _ _ eq_refl Heof) as [rest Hin].
  destruct (Ascii.eqb (peek (input_ lx)) newline_char) eqn:Hnl.
  { destruct (begin_ lx); [|eauto].
    apply IH. unfold PassString; simpl. rewrite Hin. simpl.
    rewrite Hin in Hlen. apply Ascii.eqb_eq in Hnl. rewrite Hnl.
    simpl in *. lia. }
  destruct (Ascii.eqb (peek (input_ lx)) "#") eqn:Hhash.
  { apply IH. unfold PassComment; simpl. rewrite Hin.
    pose proof (get_while_rest_shorter (fun c => negb (Ascii.eqb c newline_char))
                  (peek (input_ lx)) rest) as Hs.
    cbv beta in Hs. rewrite Hnl in Hs. specialize (Hs eq_refl). rewrite Hin in Hlen. lia. }
  destruct (Ascii.eqb (peek (input_ lx)) " ") eqn:Hsp.
  { apply IH. rewrite CountSpaces_input, Hin.
    pose proof (get_while_rest_shorter (fun c => Ascii.eqb c " ")
                  (peek (input_ lx)) rest Hsp) as Hs.
    rewrite Hin in Hlen. lia. }
  destruct (negb (indent_pos_ lx =? indents_ lx)%nat && begin_ lx).
  { destruct (indent_pos_ lx <? indents_ lx)%nat; eauto. }
  destruct (isdigit (peek (input_ lx))); [eauto|].
  destruct (isalpha (peek (input_ lx)) || Ascii.eqb (peek (input_ lx)) "_").
  { destruct (ParseName (input_ lx)) as [name rest'].
    destruct (table_find key_words name); eauto. }
  destruct (Ascii.eqb (peek (input_ lx)) dquote_char || Ascii.eqb (peek (input_ lx)) squote_char);
    [eauto|].
  rewrite Hin.
  destruct (table_find dual_symbols _); eauto.
Qed.

(** More fuel does not change the result. *)
Lemma LoadNextToken_fuel_mono fuel lx r :
  LoadNextToken_fuel fuel lx = Some r ->
  LoadNextToken_fuel (S fuel) lx = Some r.
Proof.
  revert lx. induction fuel as [|fuel IH]; intros lx; [discriminate|].
  intros H.
  cbn [LoadNextToken_fuel] in H |- *.
  destruct (is_eof_char (peek (input_ lx))); [exact H|].
  destruct (Ascii.eqb (peek (input_ lx)) newline_char).
  { destruct (begin_ lx); [|exact H]. apply IH, H. }
  destruct (Ascii.eqb (peek (input_ lx)) "#"); [apply IH, H|].
  destruct (Ascii.eqb (peek (input_ lx)) " "); [apply IH, H|].
  exact H.
Qed.

Lemma LoadNextToken_fuel_sound fuel lx r :
  LoadNextToken_fuel fuel lx = Some r -> LoadNextToken lx = r.
Proof.
  intros H. unfold LoadNextToken.
  destruct (LoadNextToken_fuel_enough (S (String.length (input_ lx))) lx) as [r' Hr']; [lia|].
  rewrite Hr'.
  assert (Hmono : forall k f l x, LoadNextToken_fuel f l = Some x ->
                                  LoadNextToken_fuel (k + f) l = Some x).
  { induction k; intros; simpl; [assumption|].
    apply LoadNextToken_fuel_mono. auto. }
  pose proof (Hmono fuel _ _ _ Hr') as H1.
  pose proof (Hmono (S (String.length (input_ lx))) _ _ _ H) as H2.
  replace (S (String.length (input_ lx)) + fuel) with (fuel + S (String.length (input_ lx))) in H2 by lia.
  congruence.
Qed.

(** [LoadNextToken] as the source has it: one equation, without fuel. *)
Lemma LoadNextToken_eof lx :
  input_ lx = EmptyString ->
  LoadNextToken lx =
    lex_ok (if negb (begin_ lx) then set_token (PassString lx) token_type.Newline
            else if (0 <? indent_pos_ lx)%nat
                 then set_token (set_indent_pos lx (indent_pos_ lx - 1)) token_type.Dedent
                 else set_token lx token_type.Eof).
Proof.
  intros Hin. apply (LoadNextToken_fuel_sound 1).
  cbn [LoadNextToken_fuel]. rewrite Hin. simpl.
  destruct (negb (begin_ lx)); [reflexivity|].
  destruct (0 <? indent_pos_ lx)%nat; reflexivity.
Qed.

Lemma append_cons (x : ascii) (a b : string) :
  (String.String x a ++ b = String.String x (a ++ b))%string.
Proof. reflexivity. Qed.

Lemma append_nil_l (a : string) : (EmptyString ++ a = a)%string.
Proof. reflexivity. Qed.

Lemma append_assoc (a b c : string) : ((a ++ b) ++ c = a ++ (b ++ c))%string.
Proof.
  induction a as [|x a IH]; [reflexivity|].
  rewrite !append_cons. f_equal. exact IH.
Qed.

Lemma append_nil_r (a : string) : (a ++ EmptyString = a)%string.
Proof.
  induction a as [|x a IH]; [reflexivity|].
  rewrite append_cons. f_equal. exact IH.
Qed.

Lemma push_back_append line c text :
  (push_back line c ++ text = line ++ String.String c text)%string.
Proof. unfold push_back. now rewrite append_assoc. Qed.

(** The closing quote ends the loop with the text accumulated. *)
Lemma ParseString_loop_close start c line rest :
  Ascii.eqb start backslash_char = false ->
  ParseString_loop start c line (String.String start rest) = lex_ok (line, rest).
Proof. intros Hbs. simpl. now rewrite Hbs, Ascii.eqb_refl. Qed.

(** What the loop appends for the escape sequence backslash-[next]. *)
Lemma ParseString_loop_escape start c line next rest :
  ParseString_loop start c line (String.String backslash_char (String.String next rest)) =
  ParseString_loop start (Some backslash_char)
    (line ++ parse_examples.piece_contents (parse_examples.Escape next)) rest.
Proof.
  simpl.
  destruct (Ascii.eqb next dquote_char); [reflexivity|].
  destruct (Ascii.eqb next squote_char); [reflexivity|].
  destruct (Ascii.eqb next "n"); [reflexivity|].
  destruct (Ascii.eqb next "t"); [reflexivity|].
  now rewrite append_nil_r.
Qed.

(** The loop goes through a body piece by piece and accumulates what the
    pieces stand for. *)
Lemma ParseString_loop_body start body : forall c line rest,
  forallb (parse_examples.piece_ok start) body = true ->
  exists c',
    ParseString_loop start c line (parse_examples.body_source body ++ rest) =
    ParseString_loop start c' (line ++ parse_examples.body_contents body) rest.
Proof.
  induction body as [|p body IH]; intros c line rest Hok.
  - exists c. simpl. now rewrite append_nil_r.
  - simpl in Hok. apply andb_prop in Hok as [Hp Hbody].
    destruct p as [x|next].
    + simpl in Hp. apply andb_prop in Hp as [Hbs Hst].
      apply negb_true_iff in Hbs, Hst.
      destruct (IH (Some x) (push_back line x) rest Hbody) as [c' Hc'].
      exists c'. cbn [parse_examples.body_source parse_examples.body_contents
                      parse_examples.piece_source parse_examples.piece_contents].
      rewrite !append_cons, !append_nil_l. cbn [ParseString_loop].
      rewrite Hbs, Hst, Hc'. now rewrite push_back_append.
    + destruct (IH (Some backslash_char)
                  (line ++ parse_examples.piece_contents (parse_examples.Escape next))
                  rest Hbody) as [c' Hc'].
      exists c'. cbn [parse_examples.body_source parse_examples.body_contents
                      parse_examples.piece_source].
      rewrite !append_cons, !append_nil_l. rewrite ParseString_loop_escape, Hc'.
      now rewrite append_assoc.
Qed.

(** [ParseString] on a whole literal: the contents its body stands for. *)
Lemma ParseString_literal start body rest :
  Ascii.eqb start backslash_char = false ->
  forallb (parse_examples.piece_ok start) body = true ->
  ParseString (parse_examples.literal start body rest) =
    lex_ok (parse_examples.body_contents body, rest).
Proof.
  intros Hbs Hok. unfold parse_examples.literal, ParseString.
  destruct (ParseString_loop_body start body Datatypes.None EmptyString
              (String.String start rest) Hok) as [c' ->].
  now rewrite ParseString_loop_close.
Qed.

Lemma body_contents_app b1 b2 :
  parse_examples.body_contents (b1 ++ b2)%list =
  (parse_examples.body_contents b1 ++ parse_examples.body_contents b2)%string.
Proof.
  induction b1 as [|p b1 IH]; [reflexivity|].
  cbn [List.app parse_examples.body_contents]. now rewrite IH, append_assoc.
Qed.

(** [ParseString] throws nothing: an input it cannot handle ends in a failed
    assertion or in undefined behaviour. *)
Lemma ParseString_loop_never_throws start input : forall c line e,
  ParseString_loop start c line input <> lex_throw e.
Proof.
  assert (H : forall n input, String.length input <= n -> forall c line e,
                ParseString_loop start c line input <> lex_throw e).
  { induction n as [|n IH]; intros [|x rest] Hlen c line e; simpl in *;
      try lia;
      try (destruct c as [c'|]; [destruct (Ascii.eqb c' start)|]; discriminate).
    destruct (Ascii.eqb x backslash_char).
    - destruct rest as [|next rest']; [discriminate|].
      apply IH. simpl in *. lia.
    - destruct (Ascii.eqb x start); [discriminate|]. apply IH. lia. }
  eauto.
Qed.

End parse_facts.

Module parse_claims.
Import parse parse_examples parse_facts.

(** C2: for the two lines [if x:] and [  print x] (two spaces of indent, each
    line ended by a newline) the lexer yields If, Id(x), Char(:), Newline,
    Indent, Print, Id(x), Newline, Dedent, Eof, and the constructor already
    leaves the first of them, If, as the current token. *)
Theorem indentation_scenario :
  exists lx0 lx,
    Lexer_new indentation_source = lex_ok lx0 /\
    CurrentToken lx0 = token_type.If /\
    NextTokens 9 lx0 =
      lex_ok (lx, [token_type.Id "x"; token_type.Char ":"; token_type.Newline;
                   token_type.Indent; token_type.Print; token_type.Id "x";
                   token_type.Newline; token_type.Dedent; token_type.Eof]).
Proof.
  eexists. eexists. split; [|split].
  - vm_compute. reflexivity.
  - reflexivity.
  - vm_compute. reflexivity.
Qed.

(** The operators scenario: [a == b <= c], without a final newline. *)
Example operators_scenario :
  exists lx0 lx,
    Lexer_new "a == b <= c" = lex_ok lx0 /\
    CurrentToken lx0 = token_type.Id "a" /\
    NextTokens 6 lx0 =
      lex_ok (lx, [token_type.Eq; token_type.Id "b"; token_type.LessOrEq;
                   token_type.Id "c"; token_type.Newline; token_type.Eof]).
Proof.
  eexists. eexists. split; [|split].
  - vm_compute. reflexivity.
  - reflexivity.
  - vm_compute. reflexivity.
Qed.

(** Draining at the end of input, from the start of a line: one Dedent per
    call while [indent_pos_] is positive, then Eof for ever. *)
Lemma drain_at_line_start n : forall lx k,
  input_ lx = EmptyString -> begin_ lx = true -> indent_pos_ lx = n ->
  exists lx',
    NextTokens (n + k) lx =
      lex_ok (lx', (List.repeat token_type.Dedent n ++ List.repeat token_type.Eof k)%list).
Proof.
  induction n as [|n IH]; intros lx k Hin Hb Hpos.
  - simpl. revert lx Hin Hb Hpos.
    induction k as [|k IHk]; intros lx Hin Hb Hpos; simpl; [eauto|].
    unfold NextToken. rewrite (LoadNextToken_eof lx Hin), Hb, Hpos. simpl.
    destruct (IHk (set_token lx token_type.Eof)) as [lx' Hlx']; auto.
    rewrite Hlx'. simpl. eauto.
  - simpl. unfold NextToken. rewrite (LoadNextToken_eof lx Hin), Hb, Hpos. simpl.
    destruct (IH (set_token (set_indent_pos lx (n - 0)) token_type.Dedent) k)
      as [lx' Hlx']; auto.
    { simpl. lia. }
    rewrite Hlx'. simpl. eauto.
Qed.

(** C5: at the end of input, in any lexer state: if [begin_] is false the
    next token is Newline and [begin_] becomes true; otherwise, while
    [indent_pos_] is positive each call yields one Dedent and decrements
    [indent_pos_]; once it is zero the lexer yields Eof, and Eof again at
    every later call. *)
Theorem end_of_input_drains (lx : Lexer) (k : nat) :
  input_ lx = EmptyString ->
  LoadNextToken lx =
    lex_ok (if negb (begin_ lx) then
              mkLexer EmptyString token_type.Newline true 0 (indent_pos_ lx)
            else if (0 <? indent_pos_ lx)%nat then
              mkLexer EmptyString token_type.Dedent true (indents_ lx) (indent_pos_ lx - 1)
            else mkLexer EmptyString token_type.Eof true (indents_ lx) 0) /\
  exists lx',
    NextTokens ((if begin_ lx then 0 else 1) + (indent_pos_ lx + k)) lx =
      lex_ok (lx', ((if begin_ lx then [] else [token_type.Newline]) ++
                    List.repeat token_type.Dedent (indent_pos_ lx) ++
                    List.repeat token_type.Eof k)%list).
Proof.
  intros Hin. split.
  - rewrite (LoadNextToken_eof lx Hin).
    destruct lx as [i t b ind pos]; simpl in *; subst i.
    destruct b; simpl; [|reflexivity].
    destruct pos; reflexivity.
  - destruct (begin_ lx) eqn:Hb.
    + simpl. apply drain_at_line_start; auto.
    + cbn [Nat.add NextTokens]. unfold NextToken.
      rewrite (LoadNextToken_eof lx Hin), Hb. simpl.
      destruct (drain_at_line_start (indent_pos_ lx)
                  (set_token (PassString lx) token_type.Newline) k) as [lx' Hlx'].
      { simpl. rewrite Hin. reflexivity. }
      { reflexivity. }
      { reflexivity. }
      rewrite Hlx'. simpl. eauto.
Qed.

Lemma end_of_input_drains_witness :
  input_ (at_end false 3 2) = EmptyString /\
  exists lx',
    NextTokens 5 (at_end false 3 2) =
      lex_ok (lx', [token_type.Newline; token_type.Dedent; token_type.Dedent;
                    token_type.Eof; token_type.Eof]).
Proof.
  split; [reflexivity|].
  exact (proj2 (end_of_input_drains (at_end false 3 2) 2 eq_refl)).
Defined.

(** C6: in a string literal the escapes backslash-quote, backslash-apostrophe,
    backslash-n and backslash-t stand for the double quote, the single quote,
    the newline and the tab, so the literal ["a\tb\n"] gives the String
    token with contents a, tab, b, newline; for an escape backslash-c with
    any other c, the backslash and c are both left out of the contents.
    The escape may stand anywhere in the literal: [pre] and [post] are any
    bodies, with escapes of their own. *)
Theorem string_escapes (start : ascii) (pre post : list piece) (rest : string)
    (next : ascii) :
  start = dquote_char \/ start = squote_char ->
  forallb (piece_ok start) pre = true ->
  forallb (piece_ok start) post = true ->
  let lexed := ParseString (literal start (pre ++ Escape next :: post) rest) in
  let contents (image : string) :=
    lex_ok (body_contents pre ++ image ++ body_contents post, rest) in
  (exists lx, Lexer_new escapes_source = lex_ok lx /\
              CurrentToken lx = token_type.String escapes_contents) /\
  (next = dquote_char -> lexed = contents (String.String dquote_char EmptyString)) /\
  (next = squote_char -> lexed = contents (String.String squote_char EmptyString)) /\
  (next = "n"%char -> lexed = contents (String.String newline_char EmptyString)) /\
  (next = "t"%char -> lexed = contents (String.String tab_char EmptyString)) /\
  (next <> dquote_char -> next <> squote_char -> next <> "n"%char -> next <> "t"%char ->
   lexed = contents EmptyString).
Proof.
  intros Hstart Hpre Hpost lexed contents.
  assert (Hbs : Ascii.eqb start backslash_char = false)
    by (destruct Hstart; subst; reflexivity).
  assert (H : lexed = contents (piece_contents (Escape next))).
  { subst lexed contents. cbv beta.
    rewrite ParseString_literal; [|exact Hbs|].
    - rewrite body_contents_app. reflexivity.
    - rewrite forallb_app. simpl. now rewrite Hpre, Hpost. }
  split; [|split; [|split; [|split; [|split]]]].
  - eexists. split; [vm_compute; reflexivity | reflexivity].
  - intros ->. exact H.
  - intros ->. exact H.
  - intros ->. exact H.
  - intros ->. exact H.
  - intros H1 H2 H3 H4. rewrite H. simpl.
    apply Ascii.eqb_neq in H1, H2, H3, H4. now rewrite H1, H2, H3, H4.
Qed.

Lemma string_escapes_witness :
  ParseString (literal dquote_char (plain "ab" ++ Escape "q" :: plain "cd") " x")
    = lex_ok ("abcd", " x") /\
  ParseString (literal squote_char (Escape "t" :: plain "ab" ++ Escape "n" :: plain "cd") "")
    = lex_ok (String.String tab_char ("ab" ++ String.String newline_char "cd"), "").
Proof.
  split.
  - apply (string_escapes dquote_char (plain "ab") (plain "cd") " x" "q");
      try reflexivity; [left; reflexivity | discriminate ..].
  - apply (string_escapes squote_char (Escape "t" :: plain "ab") (plain "cd") "" "n");
      try reflexivity.
    right; reflexivity.
Defined.

(** C7, at inputs the lexer can receive.  When the whole input is one double
    quote the literal is not terminated and [ParseString] reads its variable
    [c] before anything was stored in it: what happens is undefined.  When
    some text follows the quote, as in the input of a quote and [abc],
    [assert(c == start)] fails and the process is aborted.  In no case does
    [ParseString] throw: no error reaches the caller. *)
Theorem unterminated_string_lone_quote :
  Lexer_new (String.String dquote_char EmptyString)
    = lex_undefined "read of uninitialised c" /\
  Lexer_new (String.String dquote_char "abc") = lex_assert_failed "c == start" /\
  (forall input e, ParseString input <> lex_throw e).
Proof.
  split; [vm_compute; reflexivity|]. split; [vm_compute; reflexivity|].
  intros [|start rest] e; simpl; [discriminate|].
  apply ParseString_loop_never_throws.
Qed.

End parse_claims.

(* ================================================================= *)
(** * Properties of the runtime *)

Module runtime_facts.
Import runtime runtime_spec.

Section Facts.
Context {E : Type}.
Variable Execute : E -> M E (Closure E * State E) (ObjectHolder E).

Lemma find_app {A} (f : A -> bool) (l1 l2 : list A) :
  List.find f (l1 ++ l2)%list =
    match List.find f l1 with
    | Some x => Some x
    | None => List.find f l2
    end.
Proof.
  induction l1 as [|x l1 IH]; simpl; [reflexivity|].
  destruct (f x); [reflexivity | exact IH].
Qed.

(** [GetMethod] finds the first method of that name on the chain. *)
Lemma GetMethod_first_named : forall (c : Class E) (name : string),
  GetMethod c name = first_named c name.
Proof.
  fix IH 1. intros [n methods parent] name.
  unfold first_named. simpl. rewrite find_app.
  destruct (List.find _ methods); [reflexivity|].
  destruct parent as [p|]; [apply IH | reflexivity].
Qed.

(** A method of the class itself hides the whole parent chain. *)
Lemma GetMethod_own (c : Class E) (name : string) (m : Method E) :
  List.find (fun method => String.eqb method.(runtime.name) name) (methods_ c) = Some m ->
  GetMethod c name = Some m.
Proof. destruct c as [n methods parent]; simpl. now intros ->. Qed.

(** [HasMethod] finds only methods the class declares with that arity. *)
Lemma HasMethod_declares (self : ClassInstance E) (name : string) (arity : nat) :
  declares (cls_ self) name arity = false -> HasMethod self name arity = false.
Proof.
  unfold HasMethod, declares. rewrite GetMethod_first_named. unfold first_named.
  induction (lookup_chain (cls_ self)) as [|m chain IH]; simpl; [reflexivity|].
  intros Hnone. apply orb_false_elim in Hnone as [Hm Hchain].
  destruct (String.eqb (runtime.name m) name); simpl in Hm; [exact Hm | exact (IH Hchain)].
Qed.

(** The loop of [Call] binds the parameters in order. *)
Lemma bind_params_combine (params : list string) :
  forall (closure : Closure E) (done args : list (ObjectHolder E)),
    List.length params = List.length args ->
    bind_params closure params (done ++ args)%list (List.length done) =
      Some (List.fold_left (fun closure pa => <[fst pa := snd pa]> closure)
              (List.combine params args) closure).
Proof.
  induction params as [|param params IH]; intros closure done args Hlen.
  - reflexivity.
  - destruct args as [|arg args]; [discriminate|].
    simpl. rewrite list_lookup_middle by reflexivity.
    specialize (IH (<[param := arg]> closure) (done ++ [arg])%list args).
    rewrite <- (List.app_assoc done [arg] args) in IH.
    rewrite List.length_app in IH. simpl in IH.
    replace (List.length done + 1) with (S (List.length done)) in IH by lia.
    apply IH. simpl in Hlen. lia.
Qed.

Lemma deref_alive {A} (this : loc) (self : ClassInstance E)
    (k : ClassInstance E -> M E (State E) A) (st : State E) :
  instances st !! this = Some self -> deref this k st = k self st.
Proof. unfold deref. now intros ->. Qed.

Lemma Call_Call_spec this self method actual_args st :
  instances st !! this = Some self ->
  Call Execute this method actual_args st = Call_spec Execute this self method actual_args st.
Proof.
  intros Halive. unfold Call. rewrite (deref_alive _ _ _ _ Halive).
  unfold HasMethod, Call_spec. rewrite GetMethod_first_named.
  destruct (first_named (cls_ self) method) as [m|]; [|reflexivity].
  destruct (List.length (formal_params m) =? List.length actual_args)%nat eqn:Harity;
    [|reflexivity].
  simpl. apply Nat.eqb_eq in Harity.
  rewrite (bind_params_combine _ _ [] actual_args Harity). reflexivity.
Qed.


End Facts.

End runtime_facts.

Module runtime_claims.
Import runtime runtime_spec runtime_facts.

(** C1: [ClassInstance::Call(name, actual_args, context)] succeeds exactly
    when the first method called [name] on the chain (the methods of the
    class itself, then the parent chain) has as many formal parameters as
    there are actual arguments; it then runs the body of that method in a
    fresh closure where [self] is a non-owning holder of the instance and
    the formal parameters are bound in order to the actual arguments, and
    returns what the body returns; otherwise it fails with the method
    error.  In particular a method of that name in the class itself with
    another arity makes the call fail, whatever the parent defines. *)
Theorem Call_first_named_with_arity {E : Type}
    (Execute : E -> M E (Closure E * State E) (ObjectHolder E))
    (this : loc) (self : ClassInstance E) (method : string)
    (actual_args : list (ObjectHolder E)) (st : State E) :
  instances st !! this = Some self ->
  Call Execute this method actual_args st = Call_spec Execute this self method actual_args st /\
  (forall m,
     List.find (fun m' => String.eqb m'.(runtime.name) method) (methods_ (cls_ self)) = Some m ->
     List.length (formal_params m) <> List.length actual_args ->
     Call Execute this method actual_args st =
       (Stops (Throws (runtime_error ("Error calling method " ++ method))), st)).
Proof.
  intros Halive. split.
  - now apply Call_Call_spec.
  - intros m Hown Harity. unfold Call. rewrite (deref_alive _ _ _ _ Halive).
    unfold HasMethod. rewrite (GetMethod_own _ _ _ Hown).
    apply Nat.eqb_neq in Harity. now rewrite Harity.
Qed.

(** C3: [Equal] returns the comparison of the values for two Numbers, two
    Strings or two Bools, true for two empty holders, [IsTrue] of the result
    of [lhs.__eq__(rhs)] when [lhs] is a class instance, and throws in every
    other case. *)
Theorem Equal_by_cases {E : Type}
    (Execute : E -> M E (Closure E * State E) (ObjectHolder E))
    (lhs rhs : ObjectHolder E) :
  Equal Execute lhs rhs = Equal_spec Execute lhs rhs.
Proof.
  unfold Equal, Equal_spec, TryAs_Number, TryAs_String, TryAs_Bool,
    TryAs_ClassInstance, is_valid.
  destruct lhs as [|[l|l|l|l|l]|[l|l|l|l|l]], rhs as [|[r|r|r|r|r]|[r|r|r|r|r]];
    reflexivity.
Qed.

Lemma Call_first_named_with_arity_witness :
  instances scenarios.state_B !! 1 = Some scenarios.instance_B /\
  Call (ast.Execute scenarios.address_text 5) 1 "f" [] scenarios.state_B =
    (Stops (Throws (runtime_error "Error calling method f")), scenarios.state_B) /\
  Call (ast.Execute scenarios.address_text 5) 1 "f"
       [ObjectHolder.Own (Object.Number 7)] scenarios.state_B =
    (Returns (ObjectHolder.Own (Object.Number 7)), scenarios.state_B).
Proof.
  destruct (Call_first_named_with_arity (ast.Execute scenarios.address_text 5) 1
              scenarios.instance_B "f" [] scenarios.state_B eq_refl) as [_ Hhidden].
  destruct (Call_first_named_with_arity (ast.Execute scenarios.address_text 5) 1
              scenarios.instance_B "f" [ObjectHolder.Own (Object.Number 7)]
              scenarios.state_B eq_refl) as [Hcall _].
  split; [reflexivity|]. split.
  - apply (Hhidden (mkMethod "f" ["x"]
             (ast.Statement.MethodBody (ast.Statement.Return (ast.Statement.VariableValue ["x"]))))).
    + reflexivity.
    + simpl. lia.
  - rewrite Hcall. vm_compute. reflexivity.
Defined.




End runtime_claims.

(* ================================================================= *)
(** * Properties of the evaluator *)

Module fuel_facts.
Import runtime ast fuel_order.

Section Combinators.
Context {E S : Type}.

Lemma m_extends_refl {A} (m : M E S A) : m_extends m m.
Proof. intros s. now right. Qed.

Lemma bind_extends {A B} (m1 m2 : M E S A) (k1 k2 : A -> M E S B) :
  m_extends m1 m2 -> (forall a, m_extends (k1 a) (k2 a)) ->
  m_extends (bind m1 k1) (bind m2 k2).
Proof.
  intros Hm Hk s. unfold bind.
  destruct (Hm s) as [Hout | Heq].
  - left. destruct (m1 s) as [[a|x] s1]; simpl in *; [discriminate|].
    now inversion Hout.
  - rewrite <- Heq. destruct (m1 s) as [[a|x] s1]; [apply Hk | now right].
Qed.

Lemma if_extends {A} (b : bool) (m1 m2 n1 n2 : M E S A) :
  m_extends m1 m2 -> m_extends n1 n2 ->
  m_extends (if b then m1 else n1) (if b then m2 else n2).
Proof. now destruct b. Qed.
End Combinators.

(** Closes a goal [m_extends m1 m2] where [m2] is [m1] with the virtual
    calls replaced by ones that extend them. *)
Ltac mono :=
  repeat first
    [ assumption
    | apply m_extends_refl
    | match goal with
      | H : context [m_extends] |- m_extends _ _ => solve [apply H]
      end
    | apply bind_extends; [|intros ?]
    | match goal with
      | |- m_extends (match ?x with _ => _ end) (match ?x with _ => _ end) =>
          destruct x
      | |- m_extends (if ?b then _ else _) (if ?b then _ else _) =>
          destruct b
      end ].

Section Runtime.
Context {E : Type}.
Variables ex1 ex2 : E -> M E (runtime.Closure E * runtime.State E) (ObjectHolder E).
Variables pr1 pr2 : Object E -> M E (runtime.State E) string.
Variable address_text : loc -> string.
Hypothesis Hex : forall e, m_extends (ex1 e) (ex2 e).
Hypothesis Hpr : forall o, m_extends (pr1 o) (pr2 o).

Lemma deref_extends {A} this (k1 k2 : ClassInstance E -> M E (runtime.State E) A) :
  (forall self, m_extends (k1 self) (k2 self)) ->
  m_extends (deref this k1) (deref this k2).
Proof.
  intros Hk st. unfold deref.
  destruct (instances st !! this); [apply Hk | now right].
Qed.

Lemma Call_extends this method actual_args :
  m_extends (Call ex1 this method actual_args) (Call ex2 this method actual_args).
Proof.
  unfold Call. apply deref_extends. intros self.
  destruct (negb (HasMethod self method (List.length actual_args)));
    [apply m_extends_refl|].
  destruct (GetMethod (cls_ self) method) as [m|]; [|apply m_extends_refl].
  destruct (bind_params _ (formal_params m) actual_args 0) as [c|];
    [|apply m_extends_refl].
  intros st. destruct (Hex (body m) (c, st)) as [Hout | Heq].
  - left. destruct (ex1 (body m) (c, st)) as [r [cl st']]. exact Hout.
  - right. now rewrite Heq.
Qed.

Lemma ClassInstance_Print_extends this :
  m_extends (ClassInstance_Print ex1 pr1 address_text this)
            (ClassInstance_Print ex2 pr2 address_text this).
Proof.
  unfold ClassInstance_Print. apply deref_extends. intros self.
  pose proof Call_extends. mono.
Qed.

Lemma Print_extends object :
  m_extends (Print ex1 pr1 address_text object) (Print ex2 pr2 address_text object).
Proof.
  destruct object; simpl; try apply m_extends_refl.
  apply ClassInstance_Print_extends.
Qed.

Lemma Equal_extends lhs rhs : m_extends (Equal ex1 lhs rhs) (Equal ex2 lhs rhs).
Proof. unfold Equal. pose proof Call_extends. mono. Qed.

Lemma Less_extends lhs rhs : m_extends (Less ex1 lhs rhs) (Less ex2 lhs rhs).
Proof. unfold Less. pose proof Call_extends. mono. Qed.

Lemma NotEqual_extends lhs rhs : m_extends (NotEqual ex1 lhs rhs) (NotEqual ex2 lhs rhs).
Proof. unfold NotEqual. pose proof Equal_extends. mono. Qed.

Lemma Greater_extends lhs rhs : m_extends (Greater ex1 lhs rhs) (Greater ex2 lhs rhs).
Proof. unfold Greater. pose proof Equal_extends. pose proof Less_extends. mono. Qed.

Lemma LessOrEqual_extends lhs rhs :
  m_extends (LessOrEqual ex1 lhs rhs) (LessOrEqual ex2 lhs rhs).
Proof. unfold LessOrEqual. pose proof Greater_extends. mono. Qed.

Lemma GreaterOrEqual_extends lhs rhs :
  m_extends (GreaterOrEqual ex1 lhs rhs) (GreaterOrEqual ex2 lhs rhs).
Proof. unfold GreaterOrEqual. pose proof Less_extends. mono. Qed.
End Runtime.

Lemma with_context_extends {A} (m1 m2 : M Statement State A) :
  m_extends m1 m2 -> m_extends (with_context m1) (with_context m2).
Proof.
  intros Hm s. unfold with_context.
  destruct (Hm (snd s)) as [Hout | Heq].
  - left. destruct (m1 (snd s)) as [r st']. exact Hout.
  - right. now rewrite Heq.
Qed.

Lemma catch_holder_extends (m1 m2 : Exec Holder) :
  m_extends m1 m2 -> m_extends (catch_holder m1) (catch_holder m2).
Proof.
  intros Hm s. unfold catch_holder.
  destruct (Hm s) as [Hout | Heq].
  - left. destruct (m1 s) as [[a|x] s']; simpl in *; [discriminate|].
    inversion Hout. reflexivity.
  - right. now rewrite Heq.
Qed.

Section Nodes.
Variables ex1 ex2 : Statement -> Exec Holder.
Variables pr1 pr2 : Object Statement -> M Statement State string.
Hypothesis Hex : forall e, m_extends (ex1 e) (ex2 e).
Hypothesis Hpr : forall o, m_extends (pr1 o) (pr2 o).

Lemma Execute_args_extends args :
  m_extends (Execute_args ex1 args) (Execute_args ex2 args).
Proof. induction args as [|arg args IH]; simpl; mono. Qed.

Lemma Print_args_extends args : forall isFirst,
  m_extends (Print_args ex1 pr1 isFirst args) (Print_args ex2 pr2 isFirst args).
Proof.
  induction args as [|arg args IH]; intros isFirst; simpl; [mono|].
  pose proof (fun o => with_context_extends _ _ (Hpr o)). mono.
Qed.

Lemma Compound_args_extends args :
  m_extends (Compound_args ex1 args) (Compound_args ex2 args).
Proof. induction args as [|arg args IH]; simpl; mono. Qed.

Lemma compare_extends cmp lhs rhs :
  m_extends (compare ex1 cmp lhs rhs) (compare ex2 cmp lhs rhs).
Proof.
  destruct cmp; simpl;
    [ apply Equal_extends | apply Less_extends | apply NotEqual_extends
    | apply Greater_extends | apply LessOrEqual_extends | apply GreaterOrEqual_extends ];
    exact Hex.
Qed.

Lemma Execute_node_extends s :
  m_extends (Execute_node ex1 pr1 s) (Execute_node ex2 pr2 s).
Proof.
  pose proof Execute_args_extends.
  pose proof Print_args_extends.
  pose proof Compound_args_extends.
  pose proof (fun o => with_context_extends _ _ (Hpr o)).
  pose proof (fun this method args =>
                with_context_extends _ _ (Call_extends ex1 ex2 Hex this method args)).
  pose proof (fun cmp lhs rhs => with_context_extends _ _ (compare_extends cmp lhs rhs)).
  pose proof (fun body => catch_holder_extends _ _ (Hex body)).
  destruct s; simpl; mono.
Qed.
End Nodes.

Section Fuel.
Variable address_text : loc -> string.

Lemma Print_fuel_extends ex1 ex2 :
  (forall e, m_extends (ex1 e) (ex2 e)) ->
  forall fuel object,
    m_extends (Print_fuel address_text ex1 fuel object)
              (Print_fuel address_text ex2 (S fuel) object).
Proof.
  intros Hex. induction fuel as [|fuel IH]; intros object.
  - intros st. now left.
  - cbn [Print_fuel]. apply Print_extends; [exact Hex | exact IH].
Qed.

(** One more unit of fuel changes nothing for a run that did not run out. *)
Lemma Execute_extends fuel : forall s,
  m_extends (Execute address_text fuel s) (Execute address_text (S fuel) s).
Proof.
  induction fuel as [|fuel IH]; intros s.
  - intros st. now left.
  - cbn [Execute]. apply Execute_node_extends; [exact IH|].
    apply Print_fuel_extends, IH.
Qed.

Lemma Execute_more_fuel fuel fuel' s before r :
  Execute address_text fuel s before = r -> finished r -> fuel <= fuel' ->
  Execute address_text fuel' s before = r.
Proof.
  intros Hrun Hfin Hle. induction Hle as [|fuel' Hle IH]; [exact Hrun|].
  destruct (Execute_extends fuel' s before) as [Hout | Heq].
  - rewrite IH in Hout. contradiction.
  - now rewrite <- Heq.
Qed.

(** The evaluation of a node has one result. *)
Lemma Executes_deterministic s before r1 r2 :
  Executes address_text s before r1 -> Executes address_text s before r2 -> r1 = r2.
Proof.
  intros [f1 [H1 Hf1]] [f2 [H2 Hf2]].
  rewrite <- (Execute_more_fuel f1 (max f1 f2) s before r1 H1 Hf1) by lia.
  rewrite <- (Execute_more_fuel f2 (max f1 f2) s before r2 H2 Hf2) by lia.
  reflexivity.
Qed.
End Fuel.

End fuel_facts.

Module ast_facts.
Import runtime ast fuel_order fuel_facts runtime_facts.

Section Nodes.
Variable exec : Statement -> Exec Holder.
Variable print : Object Statement -> M Statement State string.

(** [And::Execute] does not make the virtual call on its right operand when
    the left one is not true. *)
Lemma And_node_short_circuit lhs rhs before v after :
  exec lhs before = (Returns v, after) -> IsTrue v = false ->
  Execute_node exec print (Statement.And lhs rhs) before =
    (Returns (ObjectHolder.Own (Object.Bool false)), after).
Proof.
  intros Hlhs Hfalse. simpl. unfold bind. now rewrite Hlhs, Hfalse.
Qed.

(** [NewInstance::Execute], the instance of the node being alive. *)
Lemma NewInstance_node class_instance_ args closure st self :
  instances st !! class_instance_ = Some self ->
  Execute_node exec print (Statement.NewInstance class_instance_ args) (closure, st) =
    if HasMethod self INIT_METHOD (List.length args) then
      bind (Execute_args exec args) (fun actual_args =>
        bind (with_context (Call exec class_instance_ INIT_METHOD actual_args)) (fun _ =>
          ret (ObjectHolder.Share (Object.ClassInstance class_instance_)))) (closure, st)
    else (Returns (ObjectHolder.Share (Object.ClassInstance class_instance_)), (closure, st)).
Proof.
  intros Halive. simpl. unfold bind at 1. unfold with_context at 1. simpl.
  rewrite (deref_alive _ _ _ _ Halive). unfold ret at 1. simpl.
  destruct (HasMethod self INIT_METHOD (List.length args)); [|reflexivity].
  unfold bind. simpl.
  destruct (Execute_args exec args (closure, st)) as [[actual_args|x] mid]; [|reflexivity].
  destruct (with_context _ mid) as [[r|x] after]; reflexivity.
Qed.

(** Without an [__init__] that [HasMethod] accepts, nothing is evaluated. *)
Lemma NewInstance_node_without_init class_instance_ args closure st self :
  instances st !! class_instance_ = Some self ->
  HasMethod self INIT_METHOD (List.length args) = false ->
  Execute_node exec print (Statement.NewInstance class_instance_ args) (closure, st) =
    (Returns (ObjectHolder.Share (Object.ClassInstance class_instance_)), (closure, st)).
Proof.
  intros Halive Hinit. rewrite (NewInstance_node _ _ _ _ _ Halive). now rewrite Hinit.
Qed.

End Nodes.

End ast_facts.

Module ast_claims.
Import runtime ast fuel_order fuel_facts runtime_facts ast_facts.

(** C8: when the left operand of [And(lhs, rhs)] evaluates to a holder that
    is not true, the node returns an owning [Bool(false)], the right operand
    is not evaluated (whatever it is, even one that would print, fail or not
    terminate), and the closure and the state are those left by [lhs]. *)
Theorem And_short_circuit (address_text : loc -> string) (lhs rhs : Statement)
    (before after : Closure * State) (v : Holder) (fuel : nat) :
  Execute address_text fuel lhs before = (Returns v, after) ->
  IsTrue v = false ->
  (forall fuel', fuel < fuel' ->
     Execute address_text fuel' (Statement.And lhs rhs) before =
       (Returns (ObjectHolder.Own (Object.Bool false)), after)) /\
  Executes address_text (Statement.And lhs rhs) before
    (Returns (ObjectHolder.Own (Object.Bool false)), after).
Proof.
  intros Hlhs Hfalse.
  assert (Hrun : Execute address_text (S fuel) (Statement.And lhs rhs) before =
                   (Returns (ObjectHolder.Own (Object.Bool false)), after)).
  { cbn [Execute]. now apply And_node_short_circuit with v. }
  split.
  - intros fuel' Hlt. apply (Execute_more_fuel address_text (S fuel)); [exact Hrun | | lia].
    unfold finished. simpl. discriminate.
  - exists (S fuel). split; [exact Hrun|]. unfold finished. simpl. discriminate.
Qed.

Lemma And_short_circuit_witness :
  Execute scenarios.address_text 2
    (Statement.And (Statement.NumericConst 0) scenarios.noisy) (∅, scenarios.empty_state) =
    (Returns (ObjectHolder.Own (Object.Bool false)), (∅, scenarios.empty_state)).
Proof.
  apply (And_short_circuit scenarios.address_text (Statement.NumericConst 0) scenarios.noisy
           (∅, scenarios.empty_state) (∅, scenarios.empty_state)
           (ObjectHolder.Own (Object.Number 0)) 1 eq_refl eq_refl).
  lia.
Defined.

(** C9: when the class of a [NewInstance(class, args...)] node has no
    [__init__] with as many parameters as the node has arguments, executing
    the node evaluates none of the arguments: with any fuel, even none left
    for the arguments, and whatever the arguments would do, the node returns
    the non-owning holder of its instance and leaves the closure and the
    state as they were. *)
Theorem NewInstance_without_init (address_text : loc -> string) (class_instance_ : loc)
    (args : list Statement) (closure : Closure) (st : State)
    (self : ClassInstance Statement) (fuel : nat) :
  instances st !! class_instance_ = Some self ->
  runtime_spec.declares (cls_ self) INIT_METHOD (List.length args) = false ->
  Execute address_text (S fuel) (Statement.NewInstance class_instance_ args) (closure, st) =
    (Returns (ObjectHolder.Share (Object.ClassInstance class_instance_)), (closure, st)).
Proof.
  intros Halive Hinit. cbn [Execute].
  now apply NewInstance_node_without_init with self, HasMethod_declares.
Qed.

Lemma NewInstance_without_init_witness :
  Execute scenarios.address_text 1
    (Statement.NewInstance 2 [scenarios.noisy; scenarios.failing])
    (∅, scenarios.state_nodes) =
  (Returns (ObjectHolder.Share (Object.ClassInstance 2)), (∅, scenarios.state_nodes)).
Proof.
  apply (NewInstance_without_init scenarios.address_text 2
           [scenarios.noisy; scenarios.failing] ∅ scenarios.state_nodes
           scenarios.instance_Counter 0); reflexivity.
Defined.



(** The scenarios of the specification for the evaluator: [return 2 + 3 * 4]
    in a method body gives 14; a method inherited from the parent is found;
    [X() == 5] is true for a class whose [__eq__] returns [True]. *)
Example return_through_MethodBody :
  Execute scenarios.address_text 5 scenarios.return_14 (∅, scenarios.empty_state) =
    (Returns (ObjectHolder.Own (Object.Number 14)), (∅, scenarios.empty_state)).
Proof. vm_compute. reflexivity. Qed.

Example inherited_method :
  Execute scenarios.address_text 5
    (Statement.MethodCall (Statement.NewInstance 4 []) "f" []) (∅, scenarios.state_Child) =
    (Returns (ObjectHolder.Own (Object.Number 1)), (∅, scenarios.state_Child)).
Proof. vm_compute. reflexivity. Qed.

Example dunder_equality :
  Execute scenarios.address_text 5
    (Statement.Comparison Comparator.Equal (Statement.NewInstance 3 [])
       (Statement.NumericConst 5)) (∅, scenarios.state_X) =
    (Returns (ObjectHolder.Own (Object.Bool true)), (∅, scenarios.state_X)).
Proof. vm_compute. reflexivity. Qed.

(** The node [B()] run twice with [x.f = 5] in between: [y.f] is 5. *)
Example twice_B_output :
  scenarios.output_of
    (Execute scenarios.address_text 6 scenarios.twice_B (∅, scenarios.state_nodes)) =
  parse_examples.line "5".
Proof. vm_compute. reflexivity. Qed.

(** The node [Counter(first)] run twice: the second [__init__] finds the
    field [count] set by the first and increments it, and both names hold
    the same instance. *)
Example twice_Counter_output :
  scenarios.output_of
    (Execute scenarios.address_text 8 scenarios.twice_Counter (∅, scenarios.state_nodes)) =
  parse_examples.line "1 1".
Proof. vm_compute. reflexivity. Qed.

End ast_claims.

(* ================================================================= *)
(** * More properties of the lexer *)

Module parse_extra.
Import parse parse_notions parse_facts token_ops.

(** X1: [operator==] on tokens holds exactly for equal tokens, the same
    alternative with the same payload, and [operator!=] exactly for
    different ones. *)
Theorem Token_eq_iff (lhs rhs : Token) :
  (Token_eq lhs rhs = true <-> lhs = rhs) /\
  (Token_ne lhs rhs = true <-> lhs <> rhs).
Proof.
  assert (H : Token_eq lhs rhs = true <-> lhs = rhs).
  { destruct lhs, rhs; unfold Token_eq; simpl; split; intros H;
      try discriminate; try reflexivity.
    - apply Z.eqb_eq in H. now subst.
    - injection H as ->. apply Z.eqb_refl.
    - apply String.eqb_eq in H. now subst.
    - injection H as ->. apply String.eqb_refl.
    - apply String.eqb_eq in H. now subst.
    - injection H as ->. apply String.eqb_refl.
    - apply Ascii.eqb_eq in H. now subst.
    - injection H as ->. apply Ascii.eqb_refl. }
  split; [exact H|].
  unfold Token_ne. rewrite negb_true_iff.
  destruct (Token_eq lhs rhs) eqn:E.
  - split; [discriminate|]. intros Hne. exfalso. apply Hne, H. reflexivity.
  - split; [|reflexivity]. intros _ Heq. apply H in Heq. discriminate.
Qed.

Lemma get_while_split P input :
  input = (fst (get_while P input) ++ snd (get_while P input))%string /\
  all_chars P (fst (get_while P input)) = true /\
  stops P (snd (get_while P input)) = true.
Proof.
  induction input as [|c rest IH]; simpl; [auto|].
  destruct (P c) eqn:HP; simpl.
  - destruct (get_while P rest) as [acc rest']; simpl in *.
    destruct IH as (-> & Hall & Hstop). rewrite HP. auto.
  - rewrite HP. auto.
Qed.

Lemma get_while_app P text : forall rest,
  all_chars P text = true -> stops P rest = true ->
  get_while P (text ++ rest) = (text, rest).
Proof.
  induction text as [|c text IH]; intros rest Hall Hstop.
  - rewrite append_nil_l. destruct rest as [|c rest]; [reflexivity|].
    simpl in *. apply negb_true_iff in Hstop. now rewrite Hstop.
  - simpl in Hall. apply andb_prop in Hall as [Hc Hall].
    rewrite append_cons. simpl. rewrite Hc, (IH rest Hall Hstop). reflexivity.
Qed.

(** X2: [ParseName] splits the input in two, losing nothing: the name is
    the longest prefix made of letters, digits and underscores, and what is
    left in the stream does not start with such a character. *)
Theorem ParseName_longest_prefix (input : string) :
  input = (fst (ParseName input) ++ snd (ParseName input))%string /\
  all_chars is_name_char (fst (ParseName input)) = true /\
  stops is_name_char (snd (ParseName input)) = true /\
  (forall name rest,
     all_chars is_name_char name = true -> stops is_name_char rest = true ->
     input = (name ++ rest)%string -> ParseName input = (name, rest)).
Proof.
  unfold ParseName.
  destruct (get_while_split (fun c => isalnum c || Ascii.eqb c "_") input)
    as (Hsplit & Hall & Hstop).
  repeat split; try assumption.
  intros name rest Hname Hrest ->. now apply get_while_app.
Qed.

(** X3: [LoadNextToken] terminates: its calls to itself are nested at most
    as deep as the input is long, so any fuel above that length gives the
    result, the same for all such fuels. *)
Theorem LoadNextToken_terminates (lx : Lexer) (fuel : nat) :
  String.length (input_ lx) < fuel ->
  LoadNextToken_fuel fuel lx = Some (LoadNextToken lx).
Proof.
  intros Hlen.
  destruct (LoadNextToken_fuel_enough fuel lx Hlen) as [r Hr].
  rewrite Hr. f_equal. symmetry. now apply LoadNextToken_fuel_sound with fuel.
Qed.

Lemma LoadNextToken_terminates_witness :
  LoadNextToken_fuel 20 (Lexer_init parse_examples.indentation_source) =
  Some (LoadNextToken (Lexer_init parse_examples.indentation_source)).
Proof.
  apply (LoadNextToken_terminates (Lexer_init parse_examples.indentation_source) 20).
  vm_compute. lia.
Defined.

Lemma key_words_tokens name t :
  table_find key_words name = Some t -> is_Indent t = false /\ is_Dedent t = false.
Proof.
  unfold key_words. cbn [table_find].
  repeat (destruct (String.eqb _ name); [intros [= <-]; auto|]).
  discriminate.
Qed.

Lemma dual_symbols_tokens dual t :
  table_find dual_symbols dual = Some t -> is_Indent t = false /\ is_Dedent t = false.
Proof.
  unfold dual_symbols. cbn [table_find].
  repeat (destruct (String.eqb _ dual); [intros [= <-]; auto|]).
  discriminate.
Qed.

Lemma CountSpaces_indent_pos lx : indent_pos_ (CountSpaces lx) = indent_pos_ lx.
Proof.
  unfold CountSpaces. destruct (get_while _ (input_ lx)) as [spaces rest]; simpl.
  destruct (begin_ lx); reflexivity.
Qed.

(** One call: [indent_pos_] moves by one exactly when the token is Indent
    or Dedent. *)
Lemma LoadNextToken_fuel_indent_pos fuel : forall lx lx',
  LoadNextToken_fuel fuel lx = Some (lex_ok lx') ->
  indent_pos_ lx' + (if is_Dedent (current_token_ lx') then 1 else 0) =
  indent_pos_ lx + (if is_Indent (current_token_ lx') then 1 else 0).
Proof.
  induction fuel as [|fuel IH]; intros lx lx'; [discriminate|].
  cbn [LoadNextToken_fuel].
  destruct (is_eof_char (peek (input_ lx))).
  { destruct (negb (begin_ lx)); [intros [= <-]; simpl; lia|].
    destruct (0 <? indent_pos_ lx)%nat eqn:Hpos; intros [= <-]; simpl; [|lia].
    apply Nat.ltb_lt in Hpos. lia. }
  destruct (Ascii.eqb (peek (input_ lx)) newline_char).
  { destruct (begin_ lx); [|intros [= <-]; simpl; lia].
    intros H. apply IH in H. exact H. }
  destruct (Ascii.eqb (peek (input_ lx)) "#").
  { intros H. apply IH in H. exact H. }
  destruct (Ascii.eqb (peek (input_ lx)) " ").
  { intros H. apply IH in H. now rewrite CountSpaces_indent_pos in H. }
  destruct (negb (indent_pos_ lx =? indents_ lx)%nat && begin_ lx) eqn:Hsync.
  { apply andb_prop in Hsync as [Hne _]. apply negb_true_iff, Nat.eqb_neq in Hne.
    destruct (indent_pos_ lx <? indents_ lx)%nat eqn:Hlt; intros [= <-]; simpl; [lia|].
    apply Nat.ltb_ge in Hlt. lia. }
  destruct (isdigit (peek (input_ lx))).
  { destruct (ParseNumber (input_ lx)) as [[number rest]| | |]; simpl;
      intros [= <-]. simpl. lia. }
  destruct (isalpha (peek (input_ lx)) || Ascii.eqb (peek (input_ lx)) "_").
  { destruct (ParseName (input_ lx)) as [name rest].
    destruct (table_find key_words name) as [t|] eqn:Hkey; simpl; intros [= <-]; simpl.
    - destruct (key_words_tokens _ _ Hkey) as [-> ->]. lia.
    - lia. }
  destruct (Ascii.eqb (peek (input_ lx)) dquote_char || Ascii.eqb (peek (input_ lx)) squote_char).
  { destruct (ParseString (input_ lx)) as [[str rest]| | |]; simpl;
      intros [= <-]. simpl. lia. }
  destruct (input_ lx) as [|c0 rest]; [discriminate|].
  destruct (table_find dual_symbols _) as [t|] eqn:Hdual; simpl; intros [= <-]; simpl.
  - destruct (dual_symbols_tokens _ _ Hdual) as [-> ->]. lia.
  - lia.
Qed.

Lemma LoadNextToken_ok_fuel lx lx' :
  LoadNextToken lx = lex_ok lx' ->
  LoadNextToken_fuel (S (String.length (input_ lx))) lx = Some (lex_ok lx').
Proof.
  intros H. destruct (LoadNextToken_fuel_enough (S (String.length (input_ lx))) lx)
    as [r Hr]; [lia|].
  rewrite Hr. f_equal. rewrite <- H. symmetry.
  now apply LoadNextToken_fuel_sound with (S (String.length (input_ lx))).
Qed.

(** X4: over any run of [NextToken] calls that succeed, [indent_pos_] keeps
    the account of the tokens returned: it grew by the number of Indent
    tokens and fell by the number of Dedent tokens. *)
Theorem indent_pos_accounts (n : nat) : forall (lx lx' : Lexer) (ts : list Token),
  NextTokens n lx = lex_ok (lx', ts) ->
  indent_pos_ lx' + count is_Dedent ts = indent_pos_ lx + count is_Indent ts.
Proof.
  induction n as [|n IH]; intros lx lx' ts.
  - simpl. intros [= <- <-]. reflexivity.
  - simpl. unfold NextToken.
    destruct (LoadNextToken lx) as [lx1| | |] eqn:Hstep; simpl; try discriminate.
    destruct (NextTokens n lx1) as [[lx2 ts']| | |] eqn:Hrest; simpl; try discriminate.
    intros [= <- <-].
    apply LoadNextToken_ok_fuel, LoadNextToken_fuel_indent_pos in Hstep.
    apply IH in Hrest. unfold count in *. simpl.
    destruct (is_Dedent (current_token_ lx1)), (is_Indent (current_token_ lx1));
      simpl; lia.
Qed.

Lemma indent_pos_accounts_witness :
  NextTokens 3 (parse_examples.at_end false 0 2) =
    lex_ok (mkLexer EmptyString token_type.Dedent true 0 0,
            [token_type.Newline; token_type.Dedent; token_type.Dedent]) /\
  0 + count is_Dedent [token_type.Newline; token_type.Dedent; token_type.Dedent] =
  2 + count is_Indent [token_type.Newline; token_type.Dedent; token_type.Dedent].
Proof.
  assert (Hrun : NextTokens 3 (parse_examples.at_end false 0 2) =
                 lex_ok (mkLexer EmptyString token_type.Dedent true 0 0,
                         [token_type.Newline; token_type.Dedent; token_type.Dedent]))
    by (vm_compute; reflexivity).
  split; [exact Hrun|].
  exact (indent_pos_accounts 3 _ _ _ Hrun).
Defined.

(** The calls of [LoadNextToken] to itself, without fuel. *)
Lemma LoadNextToken_again lx lx2 :
  (forall fuel, LoadNextToken_fuel (S fuel) lx = LoadNextToken_fuel fuel lx2) ->
  LoadNextToken lx = LoadNextToken lx2.
Proof.
  intros Hrec.
  destruct (LoadNextToken_fuel_enough (S (String.length (input_ lx2))) lx2) as [r Hr]; [lia|].
  rewrite (LoadNextToken_fuel_sound _ _ _ Hr).
  apply LoadNextToken_fuel_sound with (S (S (String.length (input_ lx2)))).
  now rewrite Hrec.
Qed.

Lemma LoadNextToken_blank lx rest :
  begin_ lx = true -> input_ lx = String.String newline_char rest ->
  LoadNextToken lx = LoadNextToken (PassString lx).
Proof.
  intros Hb Hin. apply LoadNextToken_again. intros fuel.
  cbn [LoadNextToken_fuel]. rewrite Hin. simpl. now rewrite Hb.
Qed.

Lemma LoadNextToken_comment lx rest :
  input_ lx = String.String "#" rest ->
  LoadNextToken lx = LoadNextToken (PassComment lx).
Proof.
  intros Hin. apply LoadNextToken_again. intros fuel.
  cbn [LoadNextToken_fuel]. rewrite Hin. reflexivity.
Qed.

Lemma LoadNextToken_spaces lx rest :
  input_ lx = String.String " " rest ->
  LoadNextToken lx = LoadNextToken (CountSpaces lx).
Proof.
  intros Hin. apply LoadNextToken_again. intros fuel.
  cbn [LoadNextToken_fuel]. rewrite Hin. reflexivity.
Qed.

Lemma tokenless_after_spaces lx comment rest :
  begin_ lx = true -> comment_or_nothing comment = true ->
  input_ lx = (comment ++ String.String newline_char rest)%string ->
  LoadNextToken lx =
    LoadNextToken (mkLexer rest (current_token_ lx) true 0 (indent_pos_ lx)).
Proof.
  intros Hb Hcomment Hin. destruct comment as [|c text].
  - rewrite append_nil_l in Hin. rewrite (LoadNextToken_blank lx rest Hb Hin).
    unfold PassString. rewrite Hin. simpl. rewrite ?Ascii.eqb_refl. reflexivity.
  - simpl in Hcomment. apply andb_prop in Hcomment as [Hc Htext].
    apply Ascii.eqb_eq in Hc. subst c. rewrite append_cons in Hin.
    rewrite (LoadNextToken_comment lx _ Hin).
    assert (Hrest : input_ (PassComment lx) = String.String newline_char rest).
    { unfold PassComment. simpl. rewrite Hin, <- append_cons.
      rewrite (get_while_app (fun c => negb (Ascii.eqb c newline_char))
                 (String.String "#" text) (String.String newline_char rest)).
      - reflexivity.
      - simpl. exact Htext.
      - simpl. rewrite ?Ascii.eqb_refl. reflexivity. }
    rewrite (LoadNextToken_blank (PassComment lx) rest Hb Hrest).
    unfold PassString. rewrite Hrest. simpl. rewrite ?Ascii.eqb_refl. reflexivity.
Qed.

(** X5: at the start of a line, a blank line and a line that holds only a
    comment, with or without spaces in front, give no token, not even
    Newline: the lexer goes on with the next line as if the line were not
    there, with [indents_] back to zero. *)
Theorem tokenless_line_skipped (lx : Lexer) (spaces comment rest : string) :
  begin_ lx = true ->
  all_chars is_space spaces = true ->
  comment_or_nothing comment = true ->
  input_ lx = (tokenless_line spaces comment ++ rest)%string ->
  LoadNextToken lx =
    LoadNextToken (mkLexer rest (current_token_ lx) true 0 (indent_pos_ lx)).
Proof.
  intros Hb Hspaces Hcomment Hin.
  unfold tokenless_line in Hin. rewrite !append_assoc, append_cons, append_nil_l in Hin.
  destruct spaces as [|c spaces'] eqn:Hsp.
  - rewrite append_nil_l in Hin. now apply tokenless_after_spaces with comment.
  - rewrite <- Hsp in *.
    assert (Hc : c = " "%char).
    { subst spaces. simpl in Hspaces. apply andb_prop in Hspaces as [Hc _].
      now apply Ascii.eqb_eq in Hc. }
    assert (Hin' : input_ lx = String.String " "
                     (spaces' ++ comment ++ String.String newline_char rest)).
    { rewrite Hin, Hsp, Hc. now rewrite append_cons. }
    rewrite (LoadNextToken_spaces lx _ Hin').
    assert (Hsplit : get_while (fun c => Ascii.eqb c " ") (input_ lx) =
                     (spaces, (comment ++ String.String newline_char rest)%string)).
    { rewrite Hin. apply get_while_app; [exact Hspaces|].
      destruct comment as [|c' text]; simpl.
      - reflexivity.
      - simpl in Hcomment. apply andb_prop in Hcomment as [Hc' _].
        apply Ascii.eqb_eq in Hc'. now subst c'. }
    rewrite (tokenless_after_spaces (CountSpaces lx) comment rest).
    + unfold CountSpaces. rewrite Hsplit. simpl. rewrite Hb. reflexivity.
    + unfold CountSpaces. rewrite Hsplit. simpl. now rewrite Hb.
    + exact Hcomment.
    + unfold CountSpaces. rewrite Hsplit. simpl. now rewrite Hb.
Qed.

Lemma tokenless_line_skipped_witness :
  LoadNextToken (Lexer_init (tokenless_line "   " "# note" ++ "x")) =
  LoadNextToken (Lexer_init "x").
Proof.
  apply (tokenless_line_skipped (Lexer_init (tokenless_line "   " "# note" ++ "x"))
           "   " "# note" "x"); reflexivity.
Defined.

Lemma string_of_uint_digits d :
  all_chars isdigit (NilEmpty.string_of_uint d) = true.
Proof. induction d; simpl; auto. Qed.

Lemma decimal_value_acc d : forall acc,
  decimal_value (Z.pos acc) (NilEmpty.string_of_uint d) = Z.pos (Pos.of_uint_acc d acc).
Proof.
  induction d; intros acc; cbn [NilEmpty.string_of_uint decimal_value Pos.of_uint_acc];
    [reflexivity
    | rewrite <- IHd; f_equal;
      match goal with |- context [digit_value ?c] =>
        let v := eval vm_compute in (digit_value c) in change (digit_value c) with v
      end; lia ..].
Qed.

Lemma decimal_value_uint d :
  decimal_value 0 (NilEmpty.string_of_uint d) = Z.of_N (Pos.of_uint d).
Proof.
  induction d; cbn [NilEmpty.string_of_uint decimal_value Pos.of_uint];
    [reflexivity | exact IHd | apply (decimal_value_acc d) ..].
Qed.

Lemma print_int_pos p :
  runtime.print_int (Z.pos p) = NilEmpty.string_of_uint (Pos.to_uint p) /\
  runtime.print_int (Z.pos p) <> EmptyString.
Proof.
  unfold runtime.print_int. simpl.
  pose proof (DecimalPos.Unsigned.to_uint_nonnil p) as Hnil.
  destruct (Pos.to_uint p); [contradiction | split; [reflexivity | discriminate] ..].
Qed.

Lemma print_int_decimal n :
  (0 <= n)%Z ->
  all_chars isdigit (runtime.print_int n) = true /\
  runtime.print_int n <> EmptyString /\
  decimal_value 0 (runtime.print_int n) = n.
Proof.
  intros Hn. destruct n as [|p|p]; [repeat split; discriminate | | lia].
  destruct (print_int_pos p) as [-> Hne].
  split; [apply string_of_uint_digits|]. split; [exact Hne|].
  rewrite decimal_value_uint. now rewrite DecimalPos.Unsigned.of_to.
Qed.

(** X6: a number written in decimal is read back by [ParseNumber]: on the
    decimal text of [n >= 0], followed by anything that does not start with
    a digit, it returns [n] and leaves what follows in the stream, as long
    as [n] fits an [int]; for a larger [n] [std::stoi] throws
    [std::out_of_range]. *)
Theorem ParseNumber_reads_decimal (n : Z) (rest : string) :
  (0 <= n)%Z ->
  stops isdigit rest = true ->
  ParseNumber (runtime.print_int n ++ rest) =
    if (n <=? INT_MAX)%Z then lex_ok (n, rest) else lex_throw (out_of_range "stoi").
Proof.
  intros Hn Hrest. destruct (print_int_decimal n Hn) as (Hdigits & Hne & Hvalue).
  unfold ParseNumber. rewrite (get_while_app isdigit _ rest Hdigits Hrest).
  unfold stoi. destruct (runtime.print_int n) as [|c text]; [contradiction|].
  rewrite Hvalue. destruct (n <=? INT_MAX)%Z; reflexivity.
Qed.

Lemma ParseNumber_reads_decimal_witness :
  ParseNumber "2147483647 + 1" = lex_ok (2147483647%Z, " + 1") /\
  ParseNumber "2147483648" = lex_throw (out_of_range "stoi").
Proof.
  split.
  - apply (ParseNumber_reads_decimal 2147483647 " + 1"); [lia | reflexivity].
  - apply (ParseNumber_reads_decimal 2147483648 ""); [lia | reflexivity].
Defined.

Lemma digit_value_range c : isdigit c = true -> (0 <= digit_value c <= 9)%Z.
Proof.
  unfold isdigit, char_in_range, digit_value. intros H.
  apply andb_prop in H as [Hlo Hhi].
  apply Nat.leb_le in Hlo, Hhi.
  change (nat_of_ascii "0") with 48 in *. change (nat_of_ascii "9") with 57 in *. lia.
Qed.

Lemma decimal_value_nonneg digits : forall acc,
  all_chars isdigit digits = true -> (0 <= acc)%Z -> (0 <= decimal_value acc digits)%Z.
Proof.
  induction digits as [|c digits IH]; intros acc Hall Hacc; simpl; [exact Hacc|].
  simpl in Hall. apply andb_prop in Hall as [Hc Hall].
  apply IH; [exact Hall|]. pose proof (digit_value_range c Hc). lia.
Qed.

(** X7: whatever the input, a number [ParseNumber] returns is between 0 and
    [INT_MAX], and what it leaves in the stream is the input without its
    leading digits. *)
Theorem ParseNumber_range (input : string) (v : Z) (rest : string) :
  ParseNumber input = lex_ok (v, rest) ->
  (0 <= v <= INT_MAX)%Z /\
  exists digits, input = (digits ++ rest)%string /\
                 all_chars isdigit digits = true /\ stops isdigit rest = true.
Proof.
  unfold ParseNumber.
  destruct (get_while_split isdigit input) as (Hsplit & Hall & Hstop).
  destruct (get_while isdigit input) as [digits rest0]; cbn [fst snd] in *.
  unfold stoi. destruct digits as [|c digits'] eqn:Hd; [discriminate|].
  rewrite <- Hd in *.
  destruct (decimal_value 0 digits <=? INT_MAX)%Z eqn:Hmax; cbn [lex_bind];
    [|discriminate].
  intros [= <- <-]. split.
  - split; [apply decimal_value_nonneg; [exact Hall | lia] | now apply Z.leb_le].
  - exists digits. auto.
Qed.

Lemma ParseNumber_range_witness :
  (0 <= 42 <= INT_MAX)%Z /\
  exists digits, "42)" = (digits ++ ")")%string /\
                 all_chars isdigit digits = true /\ stops isdigit ")" = true.
Proof. apply (ParseNumber_range "42)" 42 ")"). reflexivity. Defined.

(** The loop of [ParseString] ends well only on a closing quote. *)
Lemma ParseString_loop_closed start n : forall input c line s rest,
  String.length input <= n ->
  Ascii.eqb start backslash_char = false ->
  (forall x, c = Some x -> Ascii.eqb x start = false) ->
  ParseString_loop start c line input = lex_ok (s, rest) ->
  exists body, input = (body ++ String.String start rest)%string.
Proof.
  induction n as [|n IH]; intros input c line s rest Hlen Hbs Hc.
  - destruct input; [|simpl in Hlen; lia]. simpl.
    destruct c as [x|]; [|discriminate]. now rewrite (Hc x eq_refl).
  - destruct input as [|x input]; simpl.
    { destruct c as [y|]; [|discriminate]. now rewrite (Hc y eq_refl). }
    simpl in Hlen.
    destruct (Ascii.eqb x backslash_char) eqn:Hx.
    + destruct input as [|next input']; [discriminate|].
      intros H. apply IH in H.
      * destruct H as [body ->]. exists (String.String x (String.String next body)).
        now rewrite !append_cons.
      * simpl in Hlen. lia.
      * exact Hbs.
      * intros y [= <-]. apply Ascii.eqb_eq in Hx. subst x.
        now rewrite Ascii.eqb_sym.
    + destruct (Ascii.eqb x start) eqn:Hstart.
      * intros [= <- <-]. apply Ascii.eqb_eq in Hstart. subst x.
        exists EmptyString. reflexivity.
      * intros H. apply IH in H.
        -- destruct H as [body ->]. exists (String.String x body).
           now rewrite append_cons.
        -- lia.
        -- exact Hbs.
        -- now intros y [= <-].
Qed.

(** Where the loop compiled with the assertion returns, the loop compiled
    without it returns the same. *)
Lemma ParseString_loop_agrees start n : forall input c line r,
  String.length input <= n ->
  ParseString_loop start c line input = lex_ok r ->
  parse_builds.ParseString_loop_NDEBUG start line input = lex_ok r.
Proof.
  induction n as [|n IH]; intros input c line r Hlen.
  - destruct input; [|simpl in Hlen; lia]. simpl.
    destruct c as [x|]; [|discriminate]. now destruct (Ascii.eqb x start).
  - destruct input as [|x input]; simpl.
    { destruct c as [y|]; [|discriminate]. now destruct (Ascii.eqb y start). }
    simpl in Hlen.
    destruct (Ascii.eqb x backslash_char).
    + destruct input as [|next input']; [discriminate|].
      apply IH. simpl in Hlen. lia.
    + destruct (Ascii.eqb x start); [auto|]. apply IH. lia.
Qed.

(** Where the loop compiled without the assertion returns, the loop compiled
    with it returns the same, or else the input ran out and it does not
    return. *)
Lemma ParseString_loop_NDEBUG_returns start n : forall input c line s rest,
  String.length input <= n ->
  parse_builds.ParseString_loop_NDEBUG start line input = lex_ok (s, rest) ->
  ParseString_loop start c line input = lex_ok (s, rest) \/
  (rest = EmptyString /\ forall r, ParseString_loop start c line input <> lex_ok r).
Proof.
  assert (Hend : forall c line s rest,
    lex_ok (line, EmptyString) = lex_ok (s, rest) ->
    ParseString_loop start c line EmptyString = lex_ok (s, rest) \/
    (rest = EmptyString /\ forall r, ParseString_loop start c line EmptyString <> lex_ok r)).
  { intros c line s rest [= <- <-]. simpl.
    destruct c as [x|]; [|right; split; [reflexivity | discriminate]].
    destruct (Ascii.eqb x start); [now left | right; split; [reflexivity | discriminate]]. }
  induction n as [|n IH]; intros input c line s rest Hlen.
  - destruct input; [|simpl in Hlen; lia]. apply Hend.
  - destruct input as [|x input]; [apply Hend|].
    simpl. simpl in Hlen.
    destruct (Ascii.eqb x backslash_char).
    + destruct input as [|next input']; [discriminate|].
      apply IH. simpl in Hlen. lia.
    + destruct (Ascii.eqb x start); [now left|]. apply IH. lia.
Qed.

(** X8: [ParseString], called on an opening quote, in its two builds.
    Compiled with the assertion, it returns a text only when a closing quote
    follows: the stream is then left right after an occurrence of that
    quote, and the build without the assertion returns the same.  Compiled
    with [NDEBUG], it returns in one more case: the input ran out, nothing
    is left in the stream, and the build with the assertion does not
    return. *)
Theorem ParseString_closing_quote_by_build (start : ascii) (input : string) :
  start = dquote_char \/ start = squote_char ->
  (forall s rest,
     ParseString (String.String start input) = lex_ok (s, rest) ->
     parse_builds.ParseString_NDEBUG (String.String start input) = lex_ok (s, rest) /\
     exists body, input = (body ++ String.String start rest)%string) /\
  (forall s rest,
     parse_builds.ParseString_NDEBUG (String.String start input) = lex_ok (s, rest) ->
     ParseString (String.String start input) = lex_ok (s, rest) \/
     (rest = EmptyString /\
      forall r, ParseString (String.String start input) <> lex_ok r)).
Proof.
  intros Hstart. split; intros s rest H; simpl in H.
  - split.
    + simpl. now apply (ParseString_loop_agrees start (String.length input)) in H.
    + apply (ParseString_loop_closed start (String.length input)) in H; auto.
      * destruct Hstart; subst; reflexivity.
      * discriminate.
  - simpl. now apply (ParseString_loop_NDEBUG_returns start (String.length input)).
Qed.

Lemma ParseString_closing_quote_by_build_witness :
  (exists body, "it' + x" = (body ++ String.String squote_char " + x")%string) /\
  (ParseString "'abc" = lex_ok ("abc", EmptyString) \/
   (EmptyString = EmptyString /\ forall r, ParseString "'abc" <> lex_ok r)).
Proof.
  split.
  - apply (proj1 (ParseString_closing_quote_by_build squote_char "it' + x"
                    (or_intror eq_refl)) "it" " + x" eq_refl).
  - apply (proj2 (ParseString_closing_quote_by_build squote_char "abc"
                    (or_intror eq_refl)) "abc" EmptyString eq_refl).
Defined.

Lemma length_append (a b : string) :
  String.length (a ++ b) = String.length a + String.length b.
Proof.
  induction a as [|x a IH]; [reflexivity|].
  rewrite append_cons. simpl. now rewrite IH.
Qed.

Lemma getline_rest_length input :
  String.length (getline_rest input) <= String.length input.
Proof.
  induction input as [|c rest IH]; simpl; [lia|].
  destruct (Ascii.eqb c newline_char); lia.
Qed.

Lemma ParseString_loop_rest start n : forall input c line s rest,
  String.length input <= n ->
  ParseString_loop start c line input = lex_ok (s, rest) ->
  String.length rest <= String.length input.
Proof.
  induction n as [|n IH]; intros input c line s rest Hlen.
  - destruct input; [|simpl in Hlen; lia]. simpl.
    destruct c as [x|]; [|discriminate].
    destruct (Ascii.eqb x start); [|discriminate]. now intros [= <- <-].
  - destruct input as [|x input]; simpl.
    { destruct c as [y|]; [|discriminate].
      destruct (Ascii.eqb y start); [|discriminate]. now intros [= <- <-]. }
    simpl in Hlen.
    destruct (Ascii.eqb x backslash_char).
    + destruct input as [|next input']; [discriminate|].
      intros H. apply IH in H; simpl in *; lia.
    + destruct (Ascii.eqb x start).
      * intros [= <- <-]. lia.
      * intros H. apply IH in H; lia.
Qed.

Ltac break_ifs :=
  repeat match goal with
         | |- context [if ?b && _ then _ else _] => destruct b; cbn [andb]
         | |- context [if negb ?b then _ else _] => destruct b; cbn [negb]
         | |- context [if ?b then _ else _] => destruct b
         end.

(** Each call that returns a token other than Eof lowers the rank. *)
Lemma LoadNextToken_fuel_rank fuel : forall lx lx',
  LoadNextToken_fuel fuel lx = Some (lex_ok lx') ->
  current_token_ lx' <> token_type.Eof ->
  rank lx' < rank lx.
Proof.
  induction fuel as [|fuel IH]; intros lx lx'; [discriminate|].
  cbn [LoadNextToken_fuel].
  destruct (is_eof_char (peek (input_ lx))) eqn:Heof.
  { destruct (begin_ lx) eqn:Hb; cbn [negb].
    - destruct (0 <? indent_pos_ lx)%nat eqn:Hpos; intros [= <-] Htok.
      + apply Nat.ltb_lt in Hpos. unfold rank. simpl. rewrite Hb, Heof. simpl. lia.
      + now contradiction Htok.
    - intros [= <-] _. unfold rank. simpl. rewrite Hb.
      pose proof (getline_rest_length (input_ lx)).
      break_ifs; simpl; lia. }
  destruct (peek_cons_inv _ _ eq_refl Heof) as [rest Hin].
  destruct (Ascii.eqb (peek (input_ lx)) newline_char) eqn:Hnl.
  { assert (Hrest : getline_rest (input_ lx) = rest).
    { rewrite Hin at 1. simpl. now rewrite Hnl. }
    assert (Hlen : String.length (input_ lx) = S (String.length rest))
      by (rewrite Hin at 1; reflexivity).
    destruct (begin_ lx) eqn:Hb.
    - intros H Htok. apply IH in H; [|exact Htok].
      revert H. unfold rank. simpl. rewrite Hb, Heof, Hrest, Hlen.
      break_ifs; simpl; lia.
    - intros [= <-] _. unfold rank. simpl. rewrite Hb, Hrest, Hlen.
      break_ifs; simpl; lia. }
  destruct (Ascii.eqb (peek (input_ lx)) "#") eqn:Hhash.
  { intros H Htok. apply IH in H; [|exact Htok].
    pose proof (get_while_rest_shorter (fun c => negb (Ascii.eqb c newline_char))
                  (peek (input_ lx)) rest) as Hs.
    cbv beta in Hs. rewrite Hnl in Hs. specialize (Hs eq_refl). rewrite <- Hin in Hs.
    revert H. unfold rank, PassComment. simpl. rewrite Heof.
    break_ifs; simpl; lia. }
  destruct (Ascii.eqb (peek (input_ lx)) " ") eqn:Hsp.
  { intros H Htok. apply IH in H; [|exact Htok].
    pose proof (get_while_split (fun c => Ascii.eqb c " ") (input_ lx)) as (Hsplit & _ & _).
    pose proof (get_while_rest_shorter (fun c => Ascii.eqb c " ")
                  (peek (input_ lx)) rest Hsp) as Hs.
    rewrite <- Hin in Hs.
    apply (f_equal String.length) in Hsplit. rewrite length_append in Hsplit.
    revert H. unfold rank, CountSpaces.
    destruct (get_while _ (input_ lx)) as [spaces rest']. simpl in Hsplit, Hs.
    pose proof (Nat.Div0.mul_div_le (String.length spaces) 2) as Hhalf.
    cbv zeta. set (half := String.length spaces / 2) in *. clearbody half.
    destruct (begin_ lx) eqn:Hb; simpl; rewrite ?Hb, ?Heof; simpl;
      break_ifs; simpl; lia. }
  destruct (negb (indent_pos_ lx =? indents_ lx)%nat && begin_ lx) eqn:Hsync.
  { apply andb_prop in Hsync as [Hne Hb]. apply negb_true_iff, Nat.eqb_neq in Hne.
    destruct (indent_pos_ lx <? indents_ lx)%nat eqn:Hlt; intros [= <-] _;
      unfold rank; simpl; rewrite Hb, Heof; simpl.
    - apply Nat.ltb_lt in Hlt. lia.
    - apply Nat.ltb_ge in Hlt. lia. }
  assert (Hfinish : forall t rest',
            String.length rest' < String.length (input_ lx) ->
            rank (set_begin (set_token (set_input lx rest') t) false) < rank lx).
  { intros t rest' Hshort. unfold rank. simpl. break_ifs; simpl; lia. }
  destruct (isdigit (peek (input_ lx))) eqn:Hdigit.
  { unfold ParseNumber.
    pose proof (get_while_rest_shorter isdigit (peek (input_ lx)) rest Hdigit) as Hs.
    rewrite <- Hin in Hs.
    destruct (get_while isdigit (input_ lx)) as [number rest'].
    destruct (stoi number); simpl; intros [= <-] _. now apply Hfinish. }
  destruct (isalpha (peek (input_ lx)) || Ascii.eqb (peek (input_ lx)) "_") eqn:Halpha.
  { unfold ParseName.
    pose proof (get_while_rest_shorter (fun c => isalnum c || Ascii.eqb c "_")
                  (peek (input_ lx)) rest) as Hs.
    cbv beta in Hs. unfold isalnum in Hs at 1. rewrite Hdigit, orb_false_r, Halpha in Hs.
    specialize (Hs eq_refl). rewrite <- Hin in Hs.
    destruct (get_while _ (input_ lx)) as [name rest'].
    destruct (table_find key_words name); simpl; intros [= <-] _; now apply Hfinish. }
  destruct (Ascii.eqb (peek (input_ lx)) dquote_char || Ascii.eqb (peek (input_ lx)) squote_char).
  { destruct (ParseString (input_ lx)) as [[str rest']| | |] eqn:Hstr; simpl;
      intros [= <-] _.
    apply Hfinish.
    destruct (input_ lx) as [|c0 rest0]; [discriminate Hin|]. simpl in Hstr.
    apply (ParseString_loop_rest _ (String.length rest0)) in Hstr; simpl; lia. }
  destruct (input_ lx) as [|c0 rest0]; [discriminate Hin|].
  destruct (table_find dual_symbols _); simpl; intros [= <-] _.
  - apply Hfinish. destruct rest0; simpl; lia.
  - apply Hfinish. simpl. lia.
Qed.

Lemma Eof_or_not (t : Token) : t = token_type.Eof \/ t <> token_type.Eof.
Proof. destruct t; try (right; discriminate). now left. Qed.

Lemma NextTokens_S m lx lx1 :
  LoadNextToken lx = lex_ok lx1 ->
  NextTokens (S m) lx =
    lex_bind (NextTokens m lx1) (fun '(lx'', ts) => lex_ok (lx'', current_token_ lx1 :: ts)).
Proof. intros H. cbn [NextTokens]. unfold NextToken. now rewrite H. Qed.

Lemma reaches_Eof_rank n : forall lx,
  rank lx <= n ->
  exists m, m <= rank lx /\
    ((exists lx' ts, NextTokens (S m) lx = lex_ok (lx', (ts ++ [token_type.Eof])%list)) \/
     (forall r, NextTokens (S m) lx <> lex_ok r)).
Proof.
  induction n as [|n IH]; intros lx Hrank;
    (destruct (LoadNextToken lx) as [lx1| | |] eqn:Hstep;
     [| exists 0; split; [lia|]; right; intros r; cbn [NextTokens]; unfold NextToken;
        rewrite Hstep; discriminate ..]);
    (destruct (Eof_or_not (current_token_ lx1)) as [Heof | Hne];
     [exists 0; split; [lia|]; left; exists lx1, [];
      rewrite (NextTokens_S _ _ _ Hstep); simpl; now rewrite Heof |]);
    pose proof (LoadNextToken_fuel_rank _ _ _ (LoadNextToken_ok_fuel _ _ Hstep) Hne) as Hlow;
    [lia|].
  destruct (IH lx1) as (m & Hm & Hrun); [lia|].
  exists (S m). split; [lia|].
  rewrite (NextTokens_S _ _ _ Hstep).
  destruct Hrun as [(lx' & ts & Hrun) | Hfail].
  - left. exists lx', (current_token_ lx1 :: ts). now rewrite Hrun.
  - right. intros r.
    destruct (NextTokens (S m) lx1) as [[lx2 ts]| | |] eqn:Hrest; try discriminate.
    exfalso. now apply (Hfail (lx2, ts)).
Qed.

(** X9: the token stream ends: from any lexer state, within [rank] further
    calls of [NextToken] (a bound read off the input left and the
    indentation counters) either Eof has been returned or a call has
    failed. *)
Theorem reaches_Eof (lx : Lexer) :
  exists m, m <= rank lx /\
    ((exists lx' ts, NextTokens (S m) lx = lex_ok (lx', (ts ++ [token_type.Eof])%list)) \/
     (forall r, NextTokens (S m) lx <> lex_ok r)).
Proof. now apply reaches_Eof_rank with (rank lx). Qed.

Lemma append_cancel_r (a b c : string) : (a ++ c = b ++ c)%string -> a = b.
Proof.
  intros H.
  assert (Hlen : String.length a = String.length b).
  { apply (f_equal String.length) in H. rewrite !length_append in H. lia. }
  revert b H Hlen. induction a as [|x a IH]; intros [|y b] H Hlen;
    try discriminate; [reflexivity|].
  rewrite !append_cons in H. injection H as -> H. f_equal. apply IH; [exact H|].
  simpl in Hlen. lia.
Qed.

Lemma valued_inj type v v' : valued type v = valued type v' -> v = v'.
Proof.
  unfold valued. intros H. apply String.app_inj in H. injection H as H.
  now apply append_cancel_r in H.
Qed.

Lemma print_int_inj a b :
  NilZero.string_of_int (Z.to_int a) = NilZero.string_of_int (Z.to_int b) -> a = b.
Proof.
  assert (Hread : forall z, NilZero.int_of_string (NilZero.string_of_int (Z.to_int z)) =
                            Some (Z.to_int z)).
  { intros z. apply NilZero.isi; destruct z as [|p|p]; simpl; try discriminate;
      intros [= H]; now apply (DecimalPos.Unsigned.to_uint_nonnil p). }
  intros H. apply (f_equal NilZero.int_of_string) in H. rewrite !Hread in H.
  injection H as H. apply (f_equal Z.of_int) in H. now rewrite !DecimalZ.of_to in H.
Qed.

(** X10: the text [operator<<] writes for a token tells the token: two
    tokens with the same text are the same alternative with the same
    payload. *)
Theorem Token_print_injective (lhs rhs : Token) :
  Token_print lhs = Token_print rhs -> lhs = rhs.
Proof.
  destruct lhs, rhs; intros H; try reflexivity;
    try (cbv [Token_print valued String.append] in H; discriminate H);
    unfold Token_print in H; apply valued_inj in H.
  - f_equal. now apply print_int_inj.
  - now subst.
  - now subst.
  - now injection H as ->.
Qed.

Lemma Token_print_injective_witness :
  token_type.Id "x" = token_type.Id "x".
Proof. apply (Token_print_injective (token_type.Id "x") (token_type.Id "x")). reflexivity. Defined.

End parse_extra.

(* ================================================================= *)
(** * More properties of the runtime *)

Module runtime_extra.
Import runtime runtime_spec runtime_facts evaluator_notions.

Lemma find_first {A} (f : A -> bool) (l : list A) (x : A) :
  List.find f l = Some x ->
  f x = true /\
  exists before after, l = (before ++ x :: after)%list /\
                       forall y, In y before -> f y = false.
Proof.
  induction l as [|y l IH]; simpl; [discriminate|].
  destruct (f y) eqn:Hy.
  - intros [= <-]. split; [exact Hy|]. exists [], l. split; [reflexivity|]. intros ? [].
  - intros H. destruct (IH H) as (Hx & before & after & -> & Hbefore).
    split; [exact Hx|]. exists (y :: before), after. split; [reflexivity|].
    intros z [<- | Hz]; [exact Hy | now apply Hbefore].
Qed.

(** X11: [Class::GetMethod] returns the first method of that name on the
    chain of the methods of the class followed by those of its ancestors:
    the method found has the name and no method before it on the chain has;
    it returns null exactly when no method on the chain has the name.  The
    number of parameters plays no part. *)
Theorem GetMethod_first_on_chain {E : Type} (c : Class E) (name : string) :
  (forall m, GetMethod c name = Some m ->
     runtime.name m = name /\
     exists before after,
       lookup_chain c = (before ++ m :: after)%list /\
       forall m', In m' before -> runtime.name m' <> name) /\
  (GetMethod c name = None <->
   forall m, In m (lookup_chain c) -> runtime.name m <> name).
Proof.
  rewrite GetMethod_first_named. unfold first_named. split.
  - intros m H. apply find_first in H as (Hm & before & after & Hchain & Hbefore).
    split; [now apply String.eqb_eq|]. exists before, after. split; [exact Hchain|].
    intros m' Hin. apply String.eqb_neq. now apply Hbefore.
  - split.
    + intros H m Hin. apply String.eqb_neq. exact (List.find_none _ _ H m Hin).
    + intros H. destruct (List.find _ (lookup_chain c)) as [m|] eqn:Hfind; [|reflexivity].
      apply List.find_some in Hfind as [Hin Hname].
      apply String.eqb_eq in Hname. now destruct (H m Hin).
Qed.

Lemma string_compare_refl (s : string) : String.compare s s = Eq.
Proof.
  pose proof (String.compare_antisym s s) as H.
  destruct (String.compare s s); simpl in H; congruence.
Qed.

Lemma string_order (a b : string) :
  String.ltb b a = negb (String.ltb a b || String.eqb a b) /\
  String.ltb a b && String.eqb a b = false.
Proof.
  unfold String.ltb. rewrite (String.compare_antisym b a).
  destruct (String.eqb_spec a b) as [-> | Hne].
  - rewrite string_compare_refl. auto.
  - destruct (String.compare a b) eqn:Hab; simpl; auto.
    apply String.compare_eq_iff in Hab. contradiction.
Qed.

(** X12: on two Numbers, two Strings or two Bools the comparators are those
    of a strict total order and change nothing: [Less] and [Equal] never
    hold together, [Greater] is [Less] with the operands exchanged, and
    [LessOrEqual] is [GreaterOrEqual] with the operands exchanged. *)
Theorem comparators_on_values {E : Type}
    (Execute : E -> M E (Closure E * State E) (ObjectHolder E))
    (lhs rhs : ObjectHolder E) (st : State E) :
  both_values lhs rhs = true ->
  exists l e : bool,
    Less Execute lhs rhs st = (Returns l, st) /\
    Equal Execute lhs rhs st = (Returns e, st) /\
    l && e = false /\
    Greater Execute lhs rhs st = Less Execute rhs lhs st /\
    LessOrEqual Execute lhs rhs st = GreaterOrEqual Execute rhs lhs st.
Proof.
  unfold both_values, LessOrEqual, GreaterOrEqual, Greater, Less, Equal,
    TryAs_Number, TryAs_String, TryAs_Bool, bind, ret.
  destruct (Get lhs) as [[a|a|a|?|?]|], (Get rhs) as [[b|b|b|?|?]|];
    try discriminate; intros _.
  - exists (a <? b)%Z, (a =? b)%Z.
    destruct (Z.ltb_spec a b), (Z.ltb_spec b a), (Z.eqb_spec a b); simpl;
      try (exfalso; lia); auto.
  - destruct (string_order a b) as [Hgt Hexcl].
    exists (String.ltb a b), (String.eqb a b). rewrite Hgt.
    split; [reflexivity|]. split; [reflexivity|]. split; [exact Hexcl|].
    destruct (String.ltb a b); simpl; rewrite ?negb_involutive; auto.
  - exists (negb a && b), (Bool.eqb a b). destruct a, b; simpl; auto.
Qed.

Lemma comparators_on_values_witness :
  exists l e : bool,
    Less (ast.Execute scenarios.address_text 0)
      (ObjectHolder.Own (Object.String "abc")) (ObjectHolder.Share (Object.String "abd"))
      scenarios.empty_state = (Returns l, scenarios.empty_state) /\
    Equal (ast.Execute scenarios.address_text 0)
      (ObjectHolder.Own (Object.String "abc")) (ObjectHolder.Share (Object.String "abd"))
      scenarios.empty_state = (Returns e, scenarios.empty_state) /\
    l && e = false.
Proof.
  destruct (comparators_on_values (ast.Execute scenarios.address_text 0)
              (ObjectHolder.Own (Object.String "abc"))
              (ObjectHolder.Share (Object.String "abd"))
              scenarios.empty_state eq_refl) as (l & e & HL & HE & Hexcl & _).
  exists l, e. auto.
Defined.




End runtime_extra.

(* ================================================================= *)
(** * More properties of the evaluator *)

Module ast_extra.
Import runtime ast fuel_order fuel_facts runtime_facts ast_facts evaluator_notions.

Lemma IsTrue_Bool (b : bool) :
  IsTrue (ObjectHolder.Own (Object.Bool b) : Holder) = b.
Proof. now destruct b. Qed.

(** X14: De Morgan's laws hold for the nodes, effects included: with any
    fuel and from any state, [not (a or b)] ends as [(not a) and (not b)]
    does, and [not (a and b)] as [(not a) or (not b)], with the same result,
    the same closure and state, and [b] evaluated in the same cases. *)
Theorem De_Morgan (address_text : loc -> string) (fuel : nat) (a b : Statement)
    (s : Closure * State) :
  Execute address_text fuel (Statement.Not (Statement.Or a b)) s =
  Execute address_text fuel (Statement.And (Statement.Not a) (Statement.Not b)) s /\
  Execute address_text fuel (Statement.Not (Statement.And a b)) s =
  Execute address_text fuel (Statement.Or (Statement.Not a) (Statement.Not b)) s.
Proof.
  destruct fuel as [|[|fuel]]; [split; reflexivity | split; reflexivity |].
  cbn [Execute Execute_node]. unfold bind, ret.
  destruct (Execute address_text fuel a s) as [[va|x] s1]; [|split; reflexivity].
  rewrite !IsTrue_Bool.
  destruct (IsTrue va); simpl; cbn [Execute Execute_node]; unfold bind, ret;
    destruct (Execute address_text fuel b s1) as [[vb|x] s2];
    rewrite ?IsTrue_Bool; split; reflexivity.
Qed.

(** X15: in the nodes with two operands ([Add], [Sub], [Mult], [Div], [Or],
    [And], [Comparison]) an abrupt end of the left operand, an exception or
    a return signal, is the end of the node: it is passed on as it is, with
    the state the left operand left, and the right operand is not
    evaluated. *)
Theorem left_operand_stops (address_text : loc -> string) (fuel : nat)
    (s lhs rhs : Statement) (before after : Closure * State) (x : Abrupt Statement) :
  operands s = Some (lhs, rhs) ->
  Execute address_text fuel lhs before = (Stops x, after) ->
  Execute address_text (S fuel) s before = (Stops x, after).
Proof.
  intros Hops Hlhs.
  destruct s; try discriminate; injection Hops as -> ->;
    cbn [Execute Execute_node]; unfold bind; now rewrite Hlhs.
Qed.

Lemma left_operand_stops_witness :
  Execute scenarios.address_text 3
    (Statement.Add scenarios.failing scenarios.noisy) (∅, scenarios.empty_state) =
  (Stops (Throws (runtime_error "Division by zero")), (∅, scenarios.empty_state)).
Proof.
  apply (left_operand_stops scenarios.address_text 2
           (Statement.Add scenarios.failing scenarios.noisy)
           scenarios.failing scenarios.noisy); reflexivity.
Defined.

Section Loops.
Variable exec : Statement -> Exec Holder.

Lemma Compound_args_app pre rest (s : Closure * State) :
  Compound_args exec (pre ++ rest)%list s =
  bind (Compound_args exec pre) (fun _ => Compound_args exec rest) s.
Proof.
  revert s. induction pre as [|stmt pre IH]; intros s; [reflexivity|].
  cbn [List.app Compound_args]. unfold bind.
  destruct (exec stmt s) as [[v|x] s1]; [|reflexivity].
  rewrite IH. reflexivity.
Qed.
End Loops.

(** X16: a return signal raised by a statement of the body of a method ends
    the method there: when the statements before it complete and it throws
    the holder [v], for instance a [Return] on its own or inside an
    [IfElse], [MethodBody] returns [v] with the state as it was at the
    throw, and the statements after it are not executed. *)
Theorem return_ends_method (address_text : loc -> string) (fuel : nat)
    (pre post : list Statement) (stmt : Statement)
    (s s1 s2 : Closure * State) (h v : Holder) :
  Execute address_text (S fuel) (Statement.Compound pre) s = (Returns h, s1) ->
  Execute address_text fuel stmt s1 = (Stops (ThrowsHolder v), s2) ->
  Execute address_text (S (S fuel))
    (Statement.MethodBody (Statement.Compound (pre ++ stmt :: post))) s = (Returns v, s2).
Proof.
  intros Hpre Hstmt. cbn [Execute Execute_node] in Hpre |- *.
  unfold catch_holder. unfold bind at 1. rewrite Compound_args_app. unfold bind at 1.
  unfold bind in Hpre.
  destruct (Compound_args _ pre s) as [[[]|x] s1'] eqn:Hrun; [|discriminate].
  injection Hpre as _ <-.
  cbn [Compound_args]. unfold bind. now rewrite Hstmt.
Qed.

Lemma return_ends_method_witness :
  Execute scenarios.address_text 5
    (Statement.MethodBody
       (Statement.Compound
          ([Statement.Assignment "x" (Statement.NumericConst 1)] ++
           Statement.IfElse (Statement.VariableValue ["x"])
             (Statement.Return (Statement.NumericConst 7)) None :: [scenarios.noisy])))
    (∅, scenarios.empty_state) =
  (Returns (ObjectHolder.Own (Object.Number 7)),
   (<["x" := ObjectHolder.Own (Object.Number 1)]> ∅, scenarios.empty_state)).
Proof.
  apply (return_ends_method scenarios.address_text 3
           [Statement.Assignment "x" (Statement.NumericConst 1)] [scenarios.noisy]
           (Statement.IfElse (Statement.VariableValue ["x"])
              (Statement.Return (Statement.NumericConst 7)) None)
           (∅, scenarios.empty_state)
           (<["x" := ObjectHolder.Own (Object.Number 1)]> ∅, scenarios.empty_state)
           (<["x" := ObjectHolder.Own (Object.Number 1)]> ∅, scenarios.empty_state)
           ObjectHolder.None); vm_compute; reflexivity.
Defined.

(** X17: what [Assignment] stores is what [VariableValue] reads: after
    [var = rv] has returned [v], the name [var] evaluates to [v], in the
    state the assignment left and without changing it. *)
Theorem Assignment_then_VariableValue (address_text : loc -> string) (fuel fuel' : nat)
    (var : string) (rv : Statement) (s s' : Closure * State) (v : Holder) :
  Execute address_text fuel (Statement.Assignment var rv) s = (Returns v, s') ->
  Execute address_text (S fuel') (Statement.VariableValue [var]) s' = (Returns v, s').
Proof.
  destruct fuel as [|fuel]; [discriminate|].
  cbn [Execute Execute_node]. unfold bind, closure_set, modify, ret, VariableValue_Execute.
  destruct (Execute address_text fuel rv s) as [[value|x] [closure st]]; [|discriminate].
  simpl. intros [= <- <-]. simpl. now rewrite lookup_insert_eq.
Qed.

Lemma Assignment_then_VariableValue_witness :
  Execute scenarios.address_text 1 (Statement.VariableValue ["x"])
    (<["x" := ObjectHolder.Own (Object.Number 5)]> ∅, scenarios.empty_state) =
  (Returns (ObjectHolder.Own (Object.Number 5)),
   (<["x" := ObjectHolder.Own (Object.Number 5)]> ∅, scenarios.empty_state)).
Proof.
  apply (Assignment_then_VariableValue scenarios.address_text 2 0 "x"
           (Statement.NumericConst 5) (∅, scenarios.empty_state)).
  vm_compute. reflexivity.
Defined.

(** X18: what [FieldAssignment] stores is what a dotted [VariableValue]
    reads: after [x.field = rv] has returned [v], and if evaluating [rv] did
    not make the name [x] hold another instance, [x.field] evaluates to
    [v]. *)
Theorem FieldAssignment_then_VariableValue (address_text : loc -> string)
    (fuel fuel' : nat) (x field : string) (rv : Statement)
    (s s' : Closure * State) (v before after : Holder) :
  Execute address_text fuel (Statement.FieldAssignment [x] field rv) s = (Returns v, s') ->
  fst s !! x = Some before ->
  fst s' !! x = Some after ->
  TryAs_ClassInstance after = TryAs_ClassInstance before ->
  Execute address_text (S fuel') (Statement.VariableValue [x; field]) s' = (Returns v, s').
Proof.
  destruct fuel as [|fuel]; [discriminate|].
  intros Hrun Hbefore Hafter Hsame. revert Hrun.
  cbn [Execute Execute_node]. unfold bind at 1, VariableValue_Execute.
  cbn [VariableValue_lookup]. rewrite Hbefore.
  destruct (TryAs_ClassInstance before) as [object|] eqn:Hobject;
    [|unfold throw_runtime_error, stop; discriminate].
  unfold bind.
  destruct (Execute address_text fuel rv s) as [[value|e] [closure st]]; [|discriminate].
  unfold with_context, set_field, deref, modify, ret. simpl.
  destruct (instances st !! object) as [self|] eqn:Hself; [|discriminate].
  simpl. intros [= <- <-]. simpl in *.
  rewrite Hafter, Hsame. simpl. rewrite lookup_insert_eq. simpl.
  now rewrite lookup_insert_eq.
Qed.

Lemma FieldAssignment_then_VariableValue_witness :
  exists s',
    Execute scenarios.address_text 2
      (Statement.FieldAssignment ["x"] "f" (Statement.NumericConst 5))
      (<["x" := ObjectHolder.Share (Object.ClassInstance 1)]> ∅, scenarios.state_B) =
      (Returns (ObjectHolder.Own (Object.Number 5)), s') /\
    Execute scenarios.address_text 1 (Statement.VariableValue ["x"; "f"]) s' =
      (Returns (ObjectHolder.Own (Object.Number 5)), s').
Proof.
  eexists. split; [vm_compute; reflexivity|].
  apply (FieldAssignment_then_VariableValue scenarios.address_text 2 0 "x" "f"
           (Statement.NumericConst 5)
           (<["x" := ObjectHolder.Share (Object.ClassInstance 1)]> ∅, scenarios.state_B)
           _ _ (ObjectHolder.Share (Object.ClassInstance 1))
           (ObjectHolder.Share (Object.ClassInstance 1)));
    vm_compute; reflexivity.
Defined.

Section Keeping.
Context {E S : Type} (R : S -> S -> Prop).
Hypothesis R_refl : forall s, R s s.
Hypothesis R_trans : forall s1 s2 s3, R s1 s2 -> R s2 s3 -> R s1 s3.

Lemma keeps_ret {A} (a : A) : keeps R (ret a : M E S A).
Proof. intros s. apply R_refl. Qed.

Lemma keeps_stop {A} (x : Abrupt E) : keeps R (stop x : M E S A).
Proof. intros s. apply R_refl. Qed.

Lemma keeps_bind {A B} (m : M E S A) (k : A -> M E S B) :
  keeps R m -> (forall a, keeps R (k a)) -> keeps R (bind m k).
Proof.
  intros Hm Hk s. unfold bind. specialize (Hm s).
  destruct (m s) as [[a|x] s1]; simpl in *; [|exact Hm].
  eapply R_trans; [exact Hm | apply Hk].
Qed.
End Keeping.

Lemma grows_from_refl {E} (st : runtime.State E) : grows_from st st.
Proof.
  split; [intros l self' H; now exists self'|]. exists EmptyString.
  now rewrite parse_facts.append_nil_r.
Qed.

Lemma grows_from_trans {E} (s1 s2 s3 : runtime.State E) :
  grows_from s1 s2 -> grows_from s2 s3 -> grows_from s1 s3.
Proof.
  intros [Hc1 [m1 Ho1]] [Hc2 [m2 Ho2]]. split.
  - intros l self3 H3.
    destruct (Hc2 l self3 H3) as (self2 & H2 & Hcls2).
    destruct (Hc1 l self2 H2) as (self1 & H1 & Hcls1).
    exists self1. split; [exact H1 | congruence].
  - exists (m1 ++ m2)%string. now rewrite Ho2, Ho1, parse_facts.append_assoc.
Qed.

Lemma on_state_refl {E} (s : runtime.Closure E * runtime.State E) :
  on_state grows_from s s.
Proof. apply grows_from_refl. Qed.

Lemma on_state_trans {E} (s1 s2 s3 : runtime.Closure E * runtime.State E) :
  on_state grows_from s1 s2 -> on_state grows_from s2 s3 -> on_state grows_from s1 s3.
Proof. apply grows_from_trans. Qed.

(** Goes through the monadic structure of [m] in a goal [keeps R m]. *)
Ltac keep_structure ret_rule stop_rule bind_rule :=
  repeat first
    [ assumption
    | ret_rule
    | stop_rule
    | match goal with
      | H : context [keeps] |- keeps _ _ => solve [apply H]
      end
    | bind_rule; [|intros ?]
    | match goal with
      | |- keeps _ (match ?x with _ => _ end) => destruct x
      | |- keeps _ (if ?b then _ else _) => destruct b
      end ].

Ltac keep_state :=
  keep_structure ltac:(apply (keeps_ret _ grows_from_refl))
                 ltac:(apply (keeps_stop _ grows_from_refl))
                 ltac:(apply (keeps_bind _ grows_from_trans)).

Ltac keep_exec :=
  keep_structure ltac:(apply (keeps_ret _ on_state_refl))
                 ltac:(apply (keeps_stop _ on_state_refl))
                 ltac:(apply (keeps_bind _ on_state_trans)).

Section RuntimeKeeps.
Context {E : Type}.
Variable exec : E -> M E (runtime.Closure E * runtime.State E) (ObjectHolder E).
Variable print : Object E -> M E (runtime.State E) string.
Variable address_text : loc -> string.
Hypothesis Hexec : forall e, keeps (on_state grows_from) (exec e).
Hypothesis Hprint : forall o, keeps grows_from (print o).

Lemma deref_keeps {A} this (k : ClassInstance E -> M E (runtime.State E) A) :
  (forall self, keeps grows_from (k self)) -> keeps grows_from (deref this k).
Proof.
  intros Hk st. unfold deref.
  destruct (instances st !! this); [apply Hk | apply grows_from_refl].
Qed.

Lemma set_field_keeps this field value :
  keeps grows_from (set_field (E := E) this field value).
Proof.
  intros st. unfold set_field, deref, modify.
  destruct (instances st !! this) as [self|] eqn:Hself; [|apply grows_from_refl].
  simpl. split; simpl.
  - intros l self'. destruct (decide (this = l)) as [<-|Hne].
    + rewrite lookup_insert_eq. intros [= <-]. now exists self.
    + rewrite lookup_insert_ne by exact Hne. intros H. now exists self'.
  - exists EmptyString. now rewrite parse_facts.append_nil_r.
Qed.

Lemma Call_keeps this method actual_args :
  keeps grows_from (Call exec this method actual_args).
Proof.
  unfold Call. apply deref_keeps. intros self.
  destruct (negb _); [apply (keeps_stop _ grows_from_refl)|].
  destruct (GetMethod _ _) as [m|]; [|apply (keeps_stop _ grows_from_refl)].
  destruct (bind_params _ _ _ _) as [closure|]; [|apply (keeps_stop _ grows_from_refl)].
  intros st. specialize (Hexec (body m) (closure, st)). unfold on_state in Hexec.
  destruct (exec (body m) (closure, st)) as [r [closure' st']]. exact Hexec.
Qed.

Lemma Print_keeps object : keeps grows_from (Print exec print address_text object).
Proof.
  pose proof Call_keeps.
  destruct object; simpl; try apply (keeps_ret _ grows_from_refl).
  unfold ClassInstance_Print. apply deref_keeps. intros self. keep_state.
Qed.

Lemma Equal_keeps lhs rhs : keeps grows_from (Equal exec lhs rhs).
Proof. pose proof Call_keeps. unfold Equal, throw_runtime_error. keep_state. Qed.

Lemma Less_keeps lhs rhs : keeps grows_from (Less exec lhs rhs).
Proof. pose proof Call_keeps. unfold Less, throw_runtime_error. keep_state. Qed.
End RuntimeKeeps.

Lemma with_context_keeps {A} (m : M Statement State A) :
  keeps grows_from m -> keeps (on_state grows_from) (with_context m).
Proof.
  intros Hm s. unfold with_context, on_state. specialize (Hm (snd s)).
  destruct (m (snd s)) as [r st']. exact Hm.
Qed.

Lemma closure_set_keeps name value : keeps (on_state grows_from) (closure_set name value).
Proof. intros s. apply grows_from_refl. Qed.

Lemma write_keeps text : keeps (on_state grows_from) (write text).
Proof. intros s. split; [intros l self' H; now exists self'|]. now exists text. Qed.

Lemma catch_holder_keeps (m : Exec Holder) :
  keeps (on_state grows_from) m -> keeps (on_state grows_from) (catch_holder m).
Proof.
  intros Hm s. unfold catch_holder. specialize (Hm s).
  destruct (m s) as [[a|[]] s']; exact Hm.
Qed.

Lemma VariableValue_keeps ids : keeps (on_state grows_from) (VariableValue_Execute ids).
Proof. intros s. apply grows_from_refl. Qed.

Lemma int_result_keeps v : keeps (on_state grows_from) (int_result v).
Proof.
  unfold int_result.
  destruct (_ && _); [apply (keeps_ret _ on_state_refl) | apply (keeps_stop _ on_state_refl)].
Qed.

Section NodeKeeps.
Variable exec : Statement -> Exec Holder.
Variable print : Object Statement -> M Statement State string.
Hypothesis Hexec : forall e, keeps (on_state grows_from) (exec e).
Hypothesis Hprint : forall o, keeps grows_from (print o).

Lemma Execute_args_keeps args : keeps (on_state grows_from) (Execute_args exec args).
Proof. induction args as [|arg args IH]; simpl; keep_exec. Qed.

Lemma Print_args_keeps args : forall isFirst,
  keeps (on_state grows_from) (Print_args exec print isFirst args).
Proof.
  pose proof write_keeps. pose proof (fun o => with_context_keeps _ (Hprint o)).
  induction args as [|arg args IH]; intros isFirst; simpl; keep_exec.
Qed.

Lemma Compound_args_keeps args : keeps (on_state grows_from) (Compound_args exec args).
Proof. induction args as [|arg args IH]; simpl; keep_exec. Qed.

Lemma compare_keeps cmp lhs rhs : keeps grows_from (compare exec cmp lhs rhs).
Proof.
  pose proof (Equal_keeps exec Hexec). pose proof (Less_keeps exec Hexec).
  destruct cmp; simpl; unfold NotEqual, LessOrEqual, GreaterOrEqual, Greater; keep_state.
Qed.

Lemma Execute_node_keeps s : keeps (on_state grows_from) (Execute_node exec print s).
Proof.
  pose proof Execute_args_keeps. pose proof Print_args_keeps.
  pose proof Compound_args_keeps. pose proof write_keeps.
  pose proof closure_set_keeps. pose proof VariableValue_keeps. pose proof int_result_keeps.
  pose proof (fun o => with_context_keeps _ (Hprint o)).
  pose proof (fun this method args =>
                with_context_keeps _ (Call_keeps exec Hexec this method args)).
  pose proof (fun cmp lhs rhs => with_context_keeps _ (compare_keeps cmp lhs rhs)).
  pose proof (fun this field value =>
                with_context_keeps _ (set_field_keeps (E := Statement) this field value)).
  pose proof (fun body => catch_holder_keeps _ (Hexec body)).
  destruct s; simpl; unfold throw_runtime_error; keep_exec.
  apply with_context_keeps, deref_keeps. intros self.
  apply (keeps_ret _ grows_from_refl).
Qed.
End NodeKeeps.

Lemma Print_fuel_keeps address_text exec :
  (forall e, keeps (on_state grows_from) (exec e)) ->
  forall fuel object, keeps grows_from (Print_fuel address_text exec fuel object).
Proof.
  intros Hexec. induction fuel as [|fuel IH]; intros object; simpl.
  - apply (keeps_stop _ grows_from_refl).
  - now apply Print_keeps.
Qed.

Lemma Execute_keeps address_text fuel : forall s,
  keeps (on_state grows_from) (Execute address_text fuel s).
Proof.
  induction fuel as [|fuel IH]; intros s; cbn [Execute].
  - apply (keeps_stop _ on_state_refl).
  - apply Execute_node_keeps; [exact IH | now apply Print_fuel_keeps].
Qed.

(** X19: executing a statement, however the execution ends (a value, an
    exception, a return signal), creates no class instance and moves no
    instance to another class: an instance found afterwards is at an address
    that held an instance before, of the same class.  And the execution
    only appends to the text already written to the output stream. *)
Theorem Execute_grows_state (address_text : loc -> string) (fuel : nat) (s : Statement)
    (closure : Closure) (st : State) :
  grows_from st (snd (snd (Execute address_text fuel s (closure, st)))).
Proof. exact (Execute_keeps address_text fuel s (closure, st)). Qed.

Lemma written_nil (st : State) : written st EmptyString = st.
Proof. destruct st. unfold written. simpl. now rewrite parse_facts.append_nil_r. Qed.

Lemma written_written (st : State) (a b : string) :
  written (written st a) b = written st (a ++ b).
Proof. unfold written. simpl. now rewrite parse_facts.append_assoc. Qed.

Lemma Print_plain address_text exec fuel (h : Holder) (o : Object Statement) :
  Get h = Some o -> is_instance h = false ->
  forall st, Print_fuel address_text exec (S fuel) o st = (Returns (plain_text h), st).
Proof.
  intros Hget Hinst st. unfold plain_text. rewrite Hget.
  destruct o; try reflexivity.
  unfold is_instance, TryAs_ClassInstance in Hinst. rewrite Hget in Hinst. discriminate.
Qed.

Lemma Print_args_names address_text fuel (closure : Closure) names values :
  Forall2 (fun name value => closure !! name = Some value) names values ->
  Forall (fun value => is_instance value = false) values ->
  forall isFirst st,
    Print_args (Execute address_text (S fuel))
               (Print_fuel address_text (Execute address_text (S fuel)) (S fuel))
               isFirst (List.map (fun name => Statement.VariableValue [name]) names)
               (closure, st) =
    (Returns tt,
     (closure,
      written st ((if isFirst then "" else match names with [] => "" | _ => " " end)
                  ++ spaced (List.map plain_text values)))).
Proof.
  induction 1 as [|name value names values Hname Hrest IH]; intros Hinst isFirst st.
  - simpl. unfold ret. destruct isFirst; simpl; now rewrite written_nil.
  - inversion Hinst as [|? ? Hvalue Hvalues]; subst.
    specialize (IH Hvalues false).
    cbn [List.map Print_args].
    assert (Hlead : forall st0 : State,
      (if isFirst then ret tt else write " ") (closure, st0) =
      (Returns tt, (closure, written st0 (if isFirst then "" else " ")))).
    { intros st0. destruct isFirst; [unfold ret; now rewrite written_nil | reflexivity]. }
    unfold bind at 1. rewrite Hlead.
    unfold bind at 1. cbn [Execute Execute_node].
    unfold VariableValue_Execute. cbn [VariableValue_lookup fst snd]. rewrite Hname.
    unfold bind at 1.
    assert (Hone : forall st0 : State,
      match Get value with
      | Some o =>
          bind (with_context (Print_fuel address_text (Execute address_text (S fuel)) (S fuel) o))
               (fun text => write text)
      | Datatypes.None => write "None"
      end (closure, st0) = (Returns tt, (closure, written st0 (plain_text value)))).
    { intros st0. destruct (Get value) as [o|] eqn:Hget.
      - unfold bind, with_context. cbn [fst snd].
        rewrite (Print_plain _ _ _ value o Hget Hvalue). reflexivity.
      - unfold plain_text. rewrite Hget. reflexivity. }
    rewrite Hone, IH, !written_written. do 3 f_equal.
    destruct isFirst, values as [|value' values']; inversion Hrest; subst; simpl;
      rewrite ?parse_facts.append_nil_l, ?parse_facts.append_nil_r,
              ?parse_facts.append_assoc; reflexivity.
Qed.

(** X20: [print x1, ..., xn], where the names are bound in the closure to
    values that are not class instances, writes the texts of the values with
    one space between two of them and a newline at the end, where the text of
    the empty holder is [None], of a [Bool] [True] or [False], of a class
    [Class] and its name; it returns the empty holder and changes nothing
    else. *)
Theorem Print_writes_line (address_text : loc -> string) (fuel : nat) (closure : Closure)
    (st : State) (names : list string) (values : list Holder) :
  Forall2 (fun name value => closure !! name = Some value) names values ->
  Forall (fun value => is_instance value = false) values ->
  Execute address_text (S (S fuel)) (print_names names) (closure, st) =
  (Returns ObjectHolder.None,
   (closure,
    written st (spaced (List.map plain_text values)
                ++ String.String parse.newline_char EmptyString))).
Proof.
  intros Hnames Hvalues. unfold print_names.
  remember (S fuel) as fuel' eqn:Hfuel. cbn [Execute Execute_node]. subst fuel'.
  unfold bind at 1.
  rewrite (Print_args_names address_text fuel closure names values Hnames Hvalues true st).
  rewrite parse_facts.append_nil_l.
  rewrite <- written_written. reflexivity.
Qed.

Lemma Print_writes_line_witness :
  Execute scenarios.address_text 2 (print_names ["x"; "y"; "z"])
          (scenarios.closure_xyz, scenarios.empty_state) =
  (Returns ObjectHolder.None,
   (scenarios.closure_xyz,
    written scenarios.empty_state
            ("57 None True" ++ String.String parse.newline_char EmptyString))).
Proof.
  apply (Print_writes_line scenarios.address_text 0 scenarios.closure_xyz
           scenarios.empty_state ["x"; "y"; "z"]
           [ObjectHolder.Own (Object.Number 57); ObjectHolder.None;
            ObjectHolder.Own (Object.Bool true)]).
  - repeat constructor; vm_compute; reflexivity.
  - repeat constructor.
Defined.

Lemma Print_args_Stringify address_text fuel args : forall isFirst s,
  Print_args (Execute address_text (S fuel))
             (Print_fuel address_text (Execute address_text (S fuel)) (S fuel))
             isFirst (List.map Statement.Stringify args) s =
  Print_args (Execute address_text fuel)
             (Print_fuel address_text (Execute address_text fuel) fuel)
             isFirst args s.
Proof.
  induction args as [|arg args IH]; intros isFirst s; [reflexivity|].
  cbn [List.map Print_args]. specialize (IH false).
  set (rest' := Print_args (Execute address_text (S fuel)) _ false _) in *.
  set (rest := Print_args (Execute address_text fuel) _ false _) in *.
  clearbody rest rest'.
  cbn [Execute Execute_node]. unfold bind, with_context.
  destruct ((if isFirst then ret tt else write " ") s) as [[[]|x] s1]; [|reflexivity].
  destruct (Execute address_text fuel arg s1) as [[object|x] s2]; [|reflexivity].
  destruct (Get object) as [o|]; [|simpl; apply IH].
  destruct (Print_fuel address_text (Execute address_text fuel) fuel o (snd s2))
    as [[text|x] st3]; [|reflexivity].
  simpl. apply IH.
Qed.

(** X21: printing [str(a1), ..., str(an)] does what printing [a1, ..., an]
    does: the same text is written, the same state is left and the
    execution ends the same way, with one more level of nested [Execute]
    calls for the [Stringify] nodes. *)
Theorem Print_of_Stringify (address_text : loc -> string) (fuel : nat)
    (args : list Statement) (s : Closure * State) :
  Execute address_text (S (S fuel)) (Statement.Print (List.map Statement.Stringify args)) s =
  Execute address_text (S fuel) (Statement.Print args) s.
Proof.
  pose proof (Print_args_Stringify address_text fuel args true s) as Hargs.
  remember (S fuel) as fuel' eqn:Hfuel.
  cbn [Execute Execute_node]. subst fuel'.
  unfold bind. rewrite Hargs. reflexivity.
Qed.

End ast_extra.
